(** * WHIP/WHEP relay: a shallow embedding of [examples/whip-whep/main.go]
      and of the [media.Writer] contract of [pkg/media/media.go].

    The handlers of [main.go] are written in a small state monad over the
    process state ([World]): a handler either finishes, panics, or stays
    parked on a channel receive.  Goroutines and engine callbacks are
    driven by [Event]s, one loop iteration per event. *)

From stdpp Require Import base option list strings.
From Stdlib Require Import ZArith Lia.

Local Open Scope string_scope.
Local Open Scope Z_scope.
Local Open Scope list_scope.

(** ** Data model *)

(** Error kinds (spec section 7); [IOFailure] stands for any I/O error of
    the Go runtime such as [io.EOF]. *)
Inductive Error :=
| MalformedOffer
| CodecUnsupported
| NegotiationFailed
| ConnectivityFailed
| RelayUnavailable
| SinkClosed
| IOFailure (msg : string).

Definition EOF : Error := IOFailure "EOF".

(** [rtp.Packet], kept to the fields the relay could look at. *)
Record Packet := mkPacket {
  SequenceNumber : Z;
  Timestamp : Z;
  Payload : string
}.

Definition MimeTypeH264 : string := "video/H264".
Definition newline : string := String (Ascii.ascii_of_nat 10) EmptyString.
Definition StatusCreated : Z := 201.

Inductive RTPCodecType := RTPCodecTypeAudio | RTPCodecTypeVideo.

Record RTPCodecCapability := mkCapability {
  MimeType : string;
  ClockRate : Z;
  Channels : Z;
  SDPFmtpLine : string;
  RTCPFeedback : list string
}.

Record RTPCodecParameters := mkCodec {
  Capability : RTPCodecCapability;
  PayloadType : Z
}.

Inductive SDPType := SDPTypeOffer | SDPTypeAnswer.

Record SessionDescription := mkSD {
  Type_ : SDPType;
  SDP : string
}.

Record ICEServer := mkICEServer { URLs : list string }.
Record Configuration := mkConfiguration { ICEServers : list ICEServer }.

(** main.go:28 *)
Definition peerConnectionConfiguration : Configuration :=
  {| ICEServers := [ {| URLs := ["stun:stun.l.google.com:19302"] |} ] |}.

Inductive ICEConnectionState :=
| ICEConnectionStateNew
| ICEConnectionStateChecking
| ICEConnectionStateConnected
| ICEConnectionStateCompleted
| ICEConnectionStateDisconnected
| ICEConnectionStateFailed
| ICEConnectionStateClosed.

Definition ICEConnectionState_String (s : ICEConnectionState) : string :=
  match s with
  | ICEConnectionStateNew => "new"
  | ICEConnectionStateChecking => "checking"
  | ICEConnectionStateConnected => "connected"
  | ICEConnectionStateCompleted => "completed"
  | ICEConnectionStateDisconnected => "disconnected"
  | ICEConnectionStateFailed => "failed"
  | ICEConnectionStateClosed => "closed"
  end.

Inductive ICEGatheringState :=
| ICEGatheringStateNew
| ICEGatheringStateGathering
| ICEGatheringStateComplete.

Inductive Interceptor :=
| IntervalPLI          (* intervalpli.NewReceiverInterceptor *)
| PacketDumpRTCPOnly   (* packetdump.NewSenderInterceptor with the RTP filter of main.go:147 *)
| SenderReport         (* report.NewSenderInterceptor *)
| DefaultInterceptors. (* webrtc.RegisterDefaultInterceptors *)

(** The two closures handed to the engine, by the place that builds them.
    A closure is stored with the variables it captures. *)
Inductive TrackHandler :=
| ForwardToVideoTrack.                     (* main.go:114-132 *)

Inductive ICEHandler :=
| CloseOnFailed (peerConnection : nat).    (* main.go:194-200 *)

(** The loops that run beside the handlers, with the session whose
    receiver, remote track or sender they read from. *)
Inductive Goroutine :=
| ReceiverRTCPLoop (pc : nat)    (* main.go:115-122 *)
| TrackReadLoop (pc : nat)       (* main.go:123-131 *)
| SenderRTCPLoop (pc : nat).     (* main.go:178-185 *)

(** The handlers the mux can pick for a request: the three [main]
    registers, and the redirect [net/http] answers with by itself. *)
Inductive HandlerFunc :=
| FileServer (dir : string)
| WhepHandler
| WhipHandler
| RedirectHandler (url : string).

#[global] Instance Error_eq_dec : EqDecision Error.
Proof. solve_decision. Defined.
#[global] Instance ICEConnectionState_eq_dec : EqDecision ICEConnectionState.
Proof. solve_decision. Defined.
#[global] Instance ICEGatheringState_eq_dec : EqDecision ICEGatheringState.
Proof. solve_decision. Defined.
#[global] Instance TrackHandler_eq_dec : EqDecision TrackHandler.
Proof. solve_decision. Defined.
#[global] Instance Goroutine_eq_dec : EqDecision Goroutine.
Proof. solve_decision. Defined.
#[global] Instance Packet_eq_dec : EqDecision Packet.
Proof. solve_decision. Defined.

(** [webrtc.MediaEngine] and [interceptor.Registry] as the handlers fill them. *)
Record MediaEngine := mkMediaEngine {
  videoCodecs : list RTPCodecParameters;
  audioCodecs : list RTPCodecParameters
}.

Record API := mkAPI {
  apiMediaEngine : MediaEngine;
  apiInterceptors : list Interceptor
}.

(** [webrtc.TrackLocalStaticRTP]: the Relay Track.  [bindings] is the
    consumer set, [written] the packets accepted so far, oldest first. *)
Record Track := mkTrack {
  trackCodec : RTPCodecCapability;
  trackID : string;
  trackStreamID : string;
  bindings : list nat;
  written : list Packet
}.

(** [webrtc.PeerConnection]: one session. *)
Record PeerConnection := mkPC {
  pcConfiguration : Configuration;
  pcAPI : API;
  pcTransceivers : list RTPCodecType;
  pcSenders : list nat;
  pcOnTrack : option TrackHandler;
  pcOnICE : option ICEHandler;
  pcRemote : option SessionDescription;
  pcNegotiated : list RTPCodecParameters;
  pcLocal : option SessionDescription;
  pcGathering : ICEGatheringState;
  pcICE : ICEConnectionState;
  pcClosed : bool;
  pcInbox : list Packet
}.

(** [http.ResponseWriter] of one request. *)
Record Response := mkResponse {
  respHeader : list (string * string);
  respStatus : option Z;
  respBody : string
}.

Definition emptyResponse : Response :=
  {| respHeader := []; respStatus := None; respBody := EmptyString |}.

(** What an observer of the process sees, in order. *)
Inductive Obs :=
| ObsPrint (line : string)
| ObsGatheringComplete (pc : nat)
| ObsHeader (res : nat) (key value : string)
| ObsStatus (res : nat) (code : Z)
| ObsBody (res : nat) (body : string).

(** The process: the global [videoTrack] pointer, the heap of tracks,
    sessions and response writers, the mux, the running goroutines. *)
Record World := mkWorld {
  videoTrack : option nat;
  tracks : list Track;
  pcs : list PeerConnection;
  responses : list Response;
  mux : list (string * HandlerFunc);
  serving : bool;
  goroutines : list Goroutine;
  log : list Obs;
  crashed : option Error
}.

Definition initial : World :=
  {| videoTrack := None; tracks := []; pcs := []; responses := [];
     mux := []; serving := false; goroutines := []; log := [];
     crashed := None |}.

(** Field updates. *)
Definition set_videoTrack (v : option nat) (w : World) : World :=
  mkWorld v (tracks w) (pcs w) (responses w) (mux w) (serving w)
          (goroutines w) (log w) (crashed w).
Definition set_tracks (f : list Track -> list Track) (w : World) : World :=
  mkWorld (videoTrack w) (f (tracks w)) (pcs w) (responses w) (mux w)
          (serving w) (goroutines w) (log w) (crashed w).
Definition set_pcs (f : list PeerConnection -> list PeerConnection)
    (w : World) : World :=
  mkWorld (videoTrack w) (tracks w) (f (pcs w)) (responses w) (mux w)
          (serving w) (goroutines w) (log w) (crashed w).
Definition set_responses (f : list Response -> list Response)
    (w : World) : World :=
  mkWorld (videoTrack w) (tracks w) (pcs w) (f (responses w)) (mux w)
          (serving w) (goroutines w) (log w) (crashed w).
Definition set_mux (f : list (string * HandlerFunc) -> list (string * HandlerFunc))
    (w : World) : World :=
  mkWorld (videoTrack w) (tracks w) (pcs w) (responses w) (f (mux w))
          (serving w) (goroutines w) (log w) (crashed w).
Definition set_serving (b : bool) (w : World) : World :=
  mkWorld (videoTrack w) (tracks w) (pcs w) (responses w) (mux w) b
          (goroutines w) (log w) (crashed w).
Definition set_goroutines (f : list Goroutine -> list Goroutine)
    (w : World) : World :=
  mkWorld (videoTrack w) (tracks w) (pcs w) (responses w) (mux w)
          (serving w) (f (goroutines w)) (log w) (crashed w).
Definition observe (o : Obs) (w : World) : World :=
  mkWorld (videoTrack w) (tracks w) (pcs w) (responses w) (mux w)
          (serving w) (goroutines w) (log w ++ [o]) (crashed w).
Definition crash (e : Error) (w : World) : World :=
  mkWorld (videoTrack w) (tracks w) (pcs w) (responses w) (mux w)
          (serving w) (goroutines w) (log w) (Some e).

Definition updPC (n : nat) (f : PeerConnection -> PeerConnection) : World -> World :=
  set_pcs (alter f n).
Definition updTrack (t : nat) (f : Track -> Track) : World -> World :=
  set_tracks (alter f t).
Definition updResponse (r : nat) (f : Response -> Response) : World -> World :=
  set_responses (alter f r).

Definition with_senders (f : list nat -> list nat) (p : PeerConnection) :=
  mkPC (pcConfiguration p) (pcAPI p) (pcTransceivers p) (f (pcSenders p))
       (pcOnTrack p) (pcOnICE p) (pcRemote p) (pcNegotiated p) (pcLocal p)
       (pcGathering p) (pcICE p) (pcClosed p) (pcInbox p).
Definition with_transceivers (f : list RTPCodecType -> list RTPCodecType)
    (p : PeerConnection) :=
  mkPC (pcConfiguration p) (pcAPI p) (f (pcTransceivers p)) (pcSenders p)
       (pcOnTrack p) (pcOnICE p) (pcRemote p) (pcNegotiated p) (pcLocal p)
       (pcGathering p) (pcICE p) (pcClosed p) (pcInbox p).
Definition with_onTrack (h : option TrackHandler) (p : PeerConnection) :=
  mkPC (pcConfiguration p) (pcAPI p) (pcTransceivers p) (pcSenders p)
       h (pcOnICE p) (pcRemote p) (pcNegotiated p) (pcLocal p)
       (pcGathering p) (pcICE p) (pcClosed p) (pcInbox p).
Definition with_onICE (h : option ICEHandler) (p : PeerConnection) :=
  mkPC (pcConfiguration p) (pcAPI p) (pcTransceivers p) (pcSenders p)
       (pcOnTrack p) h (pcRemote p) (pcNegotiated p) (pcLocal p)
       (pcGathering p) (pcICE p) (pcClosed p) (pcInbox p).
Definition with_remote (d : SessionDescription)
    (neg : list RTPCodecParameters) (p : PeerConnection) :=
  mkPC (pcConfiguration p) (pcAPI p) (pcTransceivers p) (pcSenders p)
       (pcOnTrack p) (pcOnICE p) (Some d) neg (pcLocal p)
       (pcGathering p) (pcICE p) (pcClosed p) (pcInbox p).
Definition with_local (d : SessionDescription) (g : ICEGatheringState)
    (p : PeerConnection) :=
  mkPC (pcConfiguration p) (pcAPI p) (pcTransceivers p) (pcSenders p)
       (pcOnTrack p) (pcOnICE p) (pcRemote p) (pcNegotiated p) (Some d)
       g (pcICE p) (pcClosed p) (pcInbox p).
Definition with_ICE (s : ICEConnectionState) (p : PeerConnection) :=
  mkPC (pcConfiguration p) (pcAPI p) (pcTransceivers p) (pcSenders p)
       (pcOnTrack p) (pcOnICE p) (pcRemote p) (pcNegotiated p) (pcLocal p)
       (pcGathering p) s (pcClosed p) (pcInbox p).
Definition with_closed (p : PeerConnection) :=
  mkPC (pcConfiguration p) (pcAPI p) (pcTransceivers p) (pcSenders p)
       (pcOnTrack p) (pcOnICE p) (pcRemote p) (pcNegotiated p) (pcLocal p)
       (pcGathering p) (pcICE p) true (pcInbox p).
Definition with_inbox (f : list Packet -> list Packet) (p : PeerConnection) :=
  mkPC (pcConfiguration p) (pcAPI p) (pcTransceivers p) (pcSenders p)
       (pcOnTrack p) (pcOnICE p) (pcRemote p) (pcNegotiated p) (pcLocal p)
       (pcGathering p) (pcICE p) (pcClosed p) (f (pcInbox p)).

Definition with_bindings (f : list nat -> list nat) (t : Track) :=
  mkTrack (trackCodec t) (trackID t) (trackStreamID t) (f (bindings t)) (written t).
Definition with_written (f : list Packet -> list Packet) (t : Track) :=
  mkTrack (trackCodec t) (trackID t) (trackStreamID t) (bindings t) (f (written t)).

(** ** The handler monad *)

Inductive Outcome (A : Type) :=
| Done (a : A) (w : World)          (* returned *)
| Panicked (e : Error) (w : World)  (* panic(err) unwinding the caller *)
| Parked (w : World).               (* blocked on a receive that never fires *)
Arguments Done {A} a w.
Arguments Panicked {A} e w.
Arguments Parked {A} w.

Definition M (A : Type) : Type := World -> Outcome A.

Definition world_of {A} (o : Outcome A) : World :=
  match o with Done _ w | Panicked _ w | Parked w => w end.

#[global] Instance M_ret : MRet M := fun A a w => Done a w.
#[global] Instance M_bind : MBind M := fun A B f m w =>
  match m w with
  | Done a w' => f a w'
  | Panicked e w' => Panicked e w'
  | Parked w' => Parked w'
  end.

Definition panic {A} (e : Error) : M A := fun w => Panicked e w.
Definition park {A} : M A := fun w => Parked w.
Definition get : M World := fun w => Done w w.
Definition modify (f : World -> World) : M unit := fun w => Done tt (f w).

(** [if err != nil { panic(err) }] *)
Definition check (err : option Error) : M unit :=
  match err with Some e => panic e | None => mret tt end.

(** [v, err := f(); if err != nil { panic(err) }] *)
Definition must {A} (r : Error + A) : M A :=
  match r with inl e => panic e | inr a => mret a end.

(** ** The engine behind the handlers

    Everything the handlers call on [webrtc.*], [interceptor.*] and
    [net/http] lives outside the two source files.  What a call answers is
    given by an [Engine]: an oracle for failures, the offer parser, the
    answer text, the candidates each session gathers and the per-consumer
    delivery failures. *)

Inductive Call :=
| CallNewTrack | CallRegisterCodec | CallIntervalPLI | CallPacketDump
| CallSenderReport | CallDefaultInterceptors | CallNewPeerConnection
| CallAddTransceiver | CallAddTrack | CallSetLocalDescription
| CallListenAndServe.

Record Engine := mkEngine {
  failure : Call -> nat -> option Error;
  defaultMediaEngine : MediaEngine;
  wellFormed : string -> bool;
  offered : string -> list string;
  answerFor : string -> Error + string;
  gather : nat -> option (list string);
  deliverErr : nat -> Packet -> option Error
}.

Inductive APIOption :=
| WithMediaEngine (m : MediaEngine)
| WithInterceptorRegistry (r : list Interceptor).

Inductive LoopCtl := Continue | Return.

Record Request := mkRequest { reqPath : string; reqBody : Error + string }.

(** What the environment does to the process. *)
Inductive Event :=
| Serve (req : Request)
| ICEConnectionStateChanged (pc : nat) (s : ICEConnectionState)
| RemoteTrack (pc : nat)
| RTPArrives (pc : nat) (r : Error + Packet)
| ReceiverRTCPArrives (pc : nat) (r : option Error)
| SenderRTCPArrives (pc : nat) (r : option Error).

Definition newPeerConnection (api : API) (c : Configuration) : PeerConnection :=
  {| pcConfiguration := c; pcAPI := api; pcTransceivers := [];
     pcSenders := []; pcOnTrack := None; pcOnICE := None; pcRemote := None;
     pcNegotiated := []; pcLocal := None;
     pcGathering := ICEGatheringStateNew; pcICE := ICEConnectionStateNew;
     pcClosed := false; pcInbox := [] |}.

Definition apiCodecs (api : API) : list RTPCodecParameters :=
  videoCodecs (apiMediaEngine api) ++ audioCodecs (apiMediaEngine api).

Definition isClosed (w : World) (pc : nat) : bool :=
  match pcs w !! pc with Some p => pcClosed p | None => true end.

Section Engine.
Variable E : Engine.

(** Modelled from the spec: [webrtc.NewTrackLocalStaticRTP], the
    constructor of the Relay Track ("one logical media stream identified
    by codec capability and a human label", no producer, no consumer). *)
Definition NewTrackLocalStaticRTP (c : RTPCodecCapability) (id streamID : string)
    : M (Error + nat) := fun w =>
  let t := length (tracks w) in
  match failure E CallNewTrack t with
  | Some e => Done (inl e) w
  | None => Done (inr t) (set_tracks (fun l => l ++ [mkTrack c id streamID [] []]) w)
  end.

(** Modelled from the spec: [http.Handle] / [http.HandleFunc] on the
    default mux. *)
Definition Handle (pattern : string) (h : HandlerFunc) : M unit :=
  modify (set_mux (fun l => l ++ [(pattern, h)])).

(** Modelled from the spec: [http.ListenAndServe], which returns only
    with an error and otherwise serves forever. *)
Definition ListenAndServe (addr : string) : M Error := fun w =>
  match failure E CallListenAndServe 0 with
  | Some e => Done e w
  | None => Parked (set_serving true w)
  end.

Definition Println (s : string) : M unit :=
  modify (observe (ObsPrint (s +:+ newline))).
Definition Printf (s : string) : M unit := modify (observe (ObsPrint s)).

(** Modelled from the spec: [MediaEngine.RegisterCodec]. *)
Definition RegisterCodec (m : MediaEngine) (c : RTPCodecParameters)
    (typ : RTPCodecType) : Error + MediaEngine :=
  match failure E CallRegisterCodec 0 with
  | Some e => inl e
  | None =>
      inr (match typ with
           | RTPCodecTypeVideo => mkMediaEngine (videoCodecs m ++ [c]) (audioCodecs m)
           | RTPCodecTypeAudio => mkMediaEngine (videoCodecs m) (audioCodecs m ++ [c])
           end)
  end.

(** Modelled from the spec: the constructors of the policy pipeline
    ("interceptors ... attached per session at construction time"). *)
Definition construct (c : Call) (i : Interceptor) : Error + Interceptor :=
  match failure E c 0 with Some e => inl e | None => inr i end.

Definition RegisterDefaultInterceptors (m : MediaEngine)
    (r : list Interceptor) : Error + list Interceptor :=
  match failure E CallDefaultInterceptors 0 with
  | Some e => inl e
  | None => inr (r ++ [DefaultInterceptors])
  end.

(** Modelled from the spec: [webrtc.NewAPI]; an API built without
    [WithMediaEngine] gets the engine's default codecs. *)
Definition NewAPI (opts : list APIOption) : API :=
  foldl (fun a o => match o with
                    | WithMediaEngine m => mkAPI m (apiInterceptors a)
                    | WithInterceptorRegistry r => mkAPI (apiMediaEngine a) r
                    end)
        (mkAPI (defaultMediaEngine E) []) opts.

(** Modelled from the spec: [API.NewPeerConnection], "a fresh signaling
    context" in state [Created]. *)
Definition NewPeerConnection (api : API) (c : Configuration)
    : M (Error + nat) := fun w =>
  let n := length (pcs w) in
  match failure E CallNewPeerConnection n with
  | Some e => Done (inl e) w
  | None => Done (inr n) (set_pcs (fun l => l ++ [newPeerConnection api c]) w)
  end.

(** Modelled from the spec: [PeerConnection.AddTransceiverFromKind]. *)
Definition AddTransceiverFromKind (pc : nat) (k : RTPCodecType)
    : M (option Error) := fun w =>
  match failure E CallAddTransceiver pc with
  | Some e => Done (Some e) w
  | None => Done None (updPC pc (with_transceivers (fun l => l ++ [k])) w)
  end.

Definition OnTrack (pc : nat) (h : TrackHandler) : M unit :=
  modify (updPC pc (with_onTrack (Some h))).

Definition OnICEConnectionStateChange (pc : nat) (h : ICEHandler) : M unit :=
  modify (updPC pc (with_onICE (Some h))).

(** Modelled from the spec: [PeerConnection.AddTrack], which "registers
    itself as a consumer of the Relay Track at negotiation time"
    (RegisterConsumer, "pure set membership").  The sender it returns is
    named by the session that owns it. *)
Definition AddTrack (pc : nat) (track : option nat) : M (Error + nat) := fun w =>
  match track with
  | None => Done (inl RelayUnavailable) w
  | Some t =>
      match failure E CallAddTrack pc with
      | Some e => Done (inl e) w
      | None =>
          Done (inr pc)
               (updTrack t (with_bindings (fun l => l ++ [pc]))
                  (updPC pc (with_senders (fun l => l ++ [t])) w))
      end
  end.

(** Modelled from the spec: [PeerConnection.SetRemoteDescription]: the
    offer "must be a non-empty well-formed session description", it
    "fails with a MalformedOffer error if parsing fails", and with
    [CodecUnsupported] when there is "no matching media format". *)
Definition negotiate (api : API) (sdp : string) : list RTPCodecParameters :=
  filter (fun c => MimeType (Capability c) ∈ offered E sdp) (apiCodecs api).

Definition SetRemoteDescription (pc : nat) (d : SessionDescription)
    : M (option Error) := fun w =>
  if decide (SDP d = EmptyString) then Done (Some MalformedOffer) w
  else if negb (wellFormed E (SDP d)) then Done (Some MalformedOffer) w
  else match pcs w !! pc with
       | None => Done (Some NegotiationFailed) w
       | Some p =>
           match negotiate (pcAPI p) (SDP d) with
           | [] => Done (Some CodecUnsupported) w
           | neg => Done None (updPC pc (with_remote d neg) w)
           end
       end.

(** Modelled from the spec: [webrtc.GatheringCompletePromise], the
    "candidate-gathering-complete signal"; the channel is named by its
    session. *)
Definition GatheringCompletePromise (pc : nat) : M nat := mret pc.

(** Modelled from the spec: [PeerConnection.CreateAnswer], which "must
    not be invoked before the remote description is set". *)
Definition CreateAnswer (pc : nat) : M (Error + SessionDescription) := fun w =>
  match pcs w !! pc ≫= pcRemote with
  | None => Done (inl NegotiationFailed) w
  | Some offer =>
      match answerFor E (SDP offer) with
      | inl e => Done (inl e) w
      | inr s => Done (inr (mkSD SDPTypeAnswer s)) w
      end
  end.

(** Modelled from the spec: [PeerConnection.SetLocalDescription]; it
    starts candidate discovery ([CandidateGatheringInFlight]). *)
Definition SetLocalDescription (pc : nat) (d : SessionDescription)
    : M (option Error) := fun w =>
  match failure E CallSetLocalDescription pc with
  | Some e => Done (Some e) w
  | None => Done None (updPC pc (with_local d ICEGatheringStateGathering) w)
  end.

(** Modelled from the spec: the receive [<-gatherComplete].  Discovery
    runs beside the handler; the handler observes it only here, so the
    candidates the session's agent finds are folded into the local
    description at this point.  A session whose discovery never completes
    (the design has no timeout) keeps the handler parked. *)
Definition withCandidates (cs : list string) (d : SessionDescription)
    : SessionDescription :=
  mkSD (Type_ d) (SDP d +:+ String.concat EmptyString cs).

Definition recvGatherComplete (ch : nat) : M unit := fun w =>
  match pcs w !! ch with
  | None => Parked w
  | Some p =>
      match pcGathering p, pcLocal p with
      | ICEGatheringStateComplete, _ => Done tt w
      | ICEGatheringStateGathering, Some d =>
          match gather E ch with
          | None => Parked w
          | Some cs =>
              Done tt (observe (ObsGatheringComplete ch)
                         (updPC ch (with_local (withCandidates cs d)
                                      ICEGatheringStateComplete) w))
          end
      | _, _ => Parked w
      end
  end.

Definition LocalDescription (pc : nat) : M (option SessionDescription) :=
  fun w => Done (pcs w !! pc ≫= pcLocal) w.

(** Modelled from the spec: [PeerConnection.Close], the teardown: "all
    associated resources are released and the session is removed from any
    shared registry (for WHEP, removal from the Relay Track's consumer
    set)"; deregistration "must not disrupt other consumers". *)
Definition PeerConnection_Close (pc : nat) : M (option Error) := fun w =>
  Done None
       (set_tracks (fmap (with_bindings (filter (fun c => c ≠ pc))))
          (updPC pc with_closed w)).

(** Modelled from the spec: the reads a session's loops block in.  The
    environment supplies what arrives; on a closed session a reader "must
    observe an error and exit, not block forever". *)
Definition TrackRemote_ReadRTP (pc : nat) (arrival : Error + Packet)
    : M (Error + Packet) := fun w =>
  if isClosed w pc then Done (inl EOF) w else Done arrival w.

Definition readRTCP (pc : nat) (arrival : option Error)
    : M (option Error) := fun w =>
  if isClosed w pc then Done (Some EOF) w else Done arrival w.

Definition RTPReceiver_ReadRTCP := readRTCP.
Definition RTPSender_Read := readRTCP.

(** Modelled from the spec: [TrackLocalStaticRTP.WriteRTP], which
    "delivers the packet to every currently registered consumer; a
    delivery failure to one consumer does not block or fail delivery to
    others"; the failures are reported to the writer.  "Write fails if no
    codec has been negotiated yet". *)
Fixpoint fanout (consumers : list nat) (pkt : Packet) (w : World)
    : World * option Error :=
  match consumers with
  | [] => (w, None)
  | c :: rest =>
      match deliverErr E c pkt with
      | Some e => (fst (fanout rest pkt w), Some e)
      | None => fanout rest pkt (updPC c (with_inbox (fun l => l ++ [pkt])) w)
      end
  end.

Definition WriteRTP (track : option nat) (pkt : Packet) : M (option Error) :=
  fun w =>
  match track ≫= (fun t => (fun tr => (t, tr)) <$> tracks w !! t) with
  | None => Done (Some RelayUnavailable) w
  | Some (t, tr) =>
      if decide (MimeType (trackCodec tr) = EmptyString) then Done (Some CodecUnsupported) w
      else
        let '(w', err) :=
          fanout (bindings tr) pkt
                 (updTrack t (with_written (fun l => l ++ [pkt])) w) in
        Done err w'
  end.

(** Modelled from the spec: the [http.ResponseWriter] of a request. *)
Definition Header_Add (res : nat) (key value : string) : M unit :=
  modify (fun w =>
    observe (ObsHeader res key value)
      (updResponse res (fun r => mkResponse (respHeader r ++ [(key, value)])
                                   (respStatus r) (respBody r)) w)).

Definition WriteHeader (res : nat) (code : Z) : M unit :=
  modify (fun w =>
    observe (ObsStatus res code)
      (updResponse res (fun r => mkResponse (respHeader r)
                                   (Some (default code (respStatus r)))
                                   (respBody r)) w)).

Definition Fprint (res : nat) (s : string) : M unit :=
  modify (fun w =>
    observe (ObsBody res s)
      (updResponse res (fun r => mkResponse (respHeader r)
                                   (Some (default 200 (respStatus r)))
                                   (respBody r +:+ s)) w)).

(** [go f()] *)
Definition go (g : Goroutine) : M unit :=
  modify (set_goroutines (fun l => l ++ [g])).

(** [for { ... }] around a blocking read: one pass of the body per value
    the read returns; with nothing left to read the loop stays blocked. *)
Fixpoint forLoop {R} (body : R -> M LoopCtl) (reads : list R) : M unit :=
  match reads with
  | [] => park
  | r :: rest =>
      c ← body r;
      match c with
      | Continue => forLoop body rest
      | Return => mret tt
      end
  end.

End Engine.

(** ** The program: [examples/whip-whep/main.go] *)

Section Program.
Variable E : Engine.

(** main.go:194-200, the closure given to [OnICEConnectionStateChange]. *)
Definition onICEConnectionStateChange (peerConnection : nat)
    (connectionState : ICEConnectionState) : M unit :=
  Printf ("ICE Connection State has changed: "
            +:+ ICEConnectionState_String connectionState +:+ newline);;
  if decide (connectionState = ICEConnectionStateFailed)
  then _ ← PeerConnection_Close peerConnection; mret tt
  else mret tt.

(** main.go:191-230 *)
Definition writeAnswer (res : nat) (peerConnection : nat) (offer : string)
    (path : string) : M unit :=
  OnICEConnectionStateChange peerConnection (CloseOnFailed peerConnection);;
  err ← SetRemoteDescription E peerConnection (mkSD SDPTypeOffer offer);
  check err;;
  gatherComplete ← GatheringCompletePromise peerConnection;
  r ← CreateAnswer E peerConnection;
  answer ← must r;
  err ← SetLocalDescription E peerConnection answer;
  check err;;
  recvGatherComplete E gatherComplete;;
  Header_Add res "Location" path;;
  WriteHeader res StatusCreated;;
  d ← LocalDescription peerConnection;
  match d with
  | None => panic (IOFailure "nil pointer dereference")
  | Some d => Fprint res (SDP d)
  end.

(** main.go:115-122, the body of the receiver's RTCP loop. *)
Definition receiverRTCPBody (receiver : nat) (arrival : option Error)
    : M LoopCtl :=
  rtcpErr ← RTPReceiver_ReadRTCP receiver arrival;
  check rtcpErr;;
  mret Continue.

(** main.go:123-131, the body of the publisher's read loop. *)
Definition trackReadBody (track : nat) (arrival : Error + Packet)
    : M LoopCtl :=
  r ← TrackRemote_ReadRTP track arrival;
  pkt ← must r;
  w ← get;
  err ← WriteRTP E (videoTrack w) pkt;
  check err;;
  mret Continue.

(** main.go:178-185, the body of the subscriber's RTCP loop. *)
Definition senderRTCPBody (rtpSender : nat) (arrival : option Error)
    : M LoopCtl :=
  rtcpErr ← RTPSender_Read rtpSender arrival;
  match rtcpErr with
  | Some _ => mret Return
  | None => mret Continue
  end.

(** main.go:114-132, the closure given to [OnTrack]: it starts the RTCP
    loop on a goroutine and goes on as the read loop. *)
Definition onTrack (track receiver : nat) : M unit :=
  go (ReceiverRTCPLoop receiver);;
  go (TrackReadLoop track).

Definition receiverRTCPLoop (receiver : nat) := forLoop (receiverRTCPBody receiver).
Definition trackReadLoop (track : nat) := forLoop (trackReadBody track).
Definition senderRTCPLoop (rtpSender : nat) := forLoop (senderRTCPBody rtpSender).

(** main.go:55-135 *)
Definition whipHandler (res : nat) (req : Request) : M unit :=
  offer ← must (reqBody req);
  let mediaEngine := mkMediaEngine [] [] in
  mediaEngine ← must (RegisterCodec E mediaEngine
    {| Capability := {| MimeType := MimeTypeH264; ClockRate := 90000;
                        Channels := 0; SDPFmtpLine := EmptyString; RTCPFeedback := [] |};
       PayloadType := 96 |} RTPCodecTypeVideo);
  let interceptorRegistry := [] in
  intervalPliFactory ← must (construct E CallIntervalPLI IntervalPLI);
  let interceptorRegistry := interceptorRegistry ++ [intervalPliFactory] in
  interceptorRegistry ← must (RegisterDefaultInterceptors E mediaEngine interceptorRegistry);
  let api := NewAPI E [WithMediaEngine mediaEngine;
                       WithInterceptorRegistry interceptorRegistry] in
  r ← NewPeerConnection E api peerConnectionConfiguration;
  peerConnection ← must r;
  err ← AddTransceiverFromKind E peerConnection RTPCodecTypeVideo;
  check err;;
  OnTrack peerConnection ForwardToVideoTrack;;
  writeAnswer res peerConnection offer "/whip".

(** main.go:137-189 *)
Definition whepHandler (res : nat) (req : Request) : M unit :=
  offer ← must (reqBody req);
  let interceptorRegistry := [] in
  packetDump ← must (construct E CallPacketDump PacketDumpRTCPOnly);
  let interceptorRegistry := interceptorRegistry ++ [packetDump] in
  senderInterceptor ← must (construct E CallSenderReport SenderReport);
  let interceptorRegistry := interceptorRegistry ++ [senderInterceptor] in
  let api := NewAPI E [WithInterceptorRegistry interceptorRegistry] in
  r ← NewPeerConnection E api peerConnectionConfiguration;
  peerConnection ← must r;
  w ← get;
  r ← AddTrack E peerConnection (videoTrack w);
  rtpSender ← must r;
  go (SenderRTCPLoop rtpSender);;
  writeAnswer res peerConnection offer "/whep".

(** main.go:38-53 *)
Definition main : M unit :=
  r ← NewTrackLocalStaticRTP E
        {| MimeType := MimeTypeH264; ClockRate := 0; Channels := 0;
           SDPFmtpLine := EmptyString; RTCPFeedback := [] |} "video" "pion";
  modify (set_videoTrack (match r with inr t => Some t | inl _ => None end));;
  check (match r with inl e => Some e | inr _ => None end);;
  Handle "/" (FileServer ".");;
  Handle "/whep" WhepHandler;;
  Handle "/whip" WhipHandler;;
  Println "Open http://localhost:8080 to access this demo";;
  e ← ListenAndServe E ":8080";
  panic e.

(** ** Running the process *)

(** A goroutine that panics takes the process down; one that returns is
    gone; one that is parked stays. *)
Definition resume (g : Goroutine) (m : M unit) (w : World) : World :=
  match m w with
  | Done _ w' => set_goroutines (filter (fun g' => g' ≠ g)) w'
  | Panicked e w' => crash e w'
  | Parked w' => w'
  end.

(** A callback run by the engine on a goroutine of its own. *)
Definition callback (m : M unit) (w : World) : World :=
  match m w with
  | Done _ w' => w'
  | Panicked e w' => crash e w'
  | Parked w' => w'
  end.

(** Modelled from the spec: the path clean-up of [net/http]'s mux, which
    is not part of this repository.  The elements of a path between its
    slashes; the rooted path without empty, [.] and [..] elements; and the
    canonical form of a request path, which is rooted and keeps a trailing
    slash. *)
Definition slash : Ascii.ascii := Ascii.ascii_of_nat 47.

Fixpoint segments (cur s : string) : list string :=
  match s with
  | EmptyString => [cur]
  | String c s' =>
      if Ascii.eqb c slash then cur :: segments EmptyString s'
      else segments (cur +:+ String c EmptyString) s'
  end.

Definition clean (p : string) : string :=
  "/" +:+ String.concat "/"
    (foldl (fun st seg =>
              if decide (seg = EmptyString \/ seg = ".") then st
              else if decide (seg = "..") then removelast st
              else st ++ [seg])
           [] (segments EmptyString p)).

Definition endsWithSlash (p : string) : bool :=
  bool_decide (last (segments EmptyString p) = Some EmptyString).

Definition cleanPath (p : string) : string :=
  match p with
  | EmptyString => "/"
  | String c _ =>
      let p1 := if Ascii.eqb c slash then p else "/" +:+ p in
      let np := clean p1 in
      if endsWithSlash p1 && negb (bool_decide (np = "/")) then np +:+ "/" else np
  end.

(** Modelled from the spec: the handler [net/http]'s mux picks for the
    path of a request (other than a [CONNECT] request).  A path that is not
    in canonical form is answered with a redirect to its canonical form;
    otherwise a pattern equal to the path wins over the subtree pattern
    ["/"], which takes every other path. *)
Definition route (m : list (string * HandlerFunc)) (path : string)
    : option HandlerFunc :=
  if decide (cleanPath path = path) then
    match list_find (fun ph => ph.1 = path) m with
    | Some (_, (_, h)) => Some h
    | None => snd <$> (snd <$> list_find (fun ph => ph.1 = "/") m)
    end
  else Some (RedirectHandler (cleanPath path)).

(** One request: a fresh response writer, then the handler, which runs
    to its end or to where it parks.  [net/http] recovers a handler's panic
    and drops the connection; whatever the handler did to the process
    stays.  The file server, the redirect (status 301 with the [Location]
    of the canonical path) and the 404 of an empty mux are [net/http]'s
    own; what the file server writes is not modelled. *)
Definition serve (req : Request) (w : World) : World :=
  let res := length (responses w) in
  let w1 := set_responses (fun l => l ++ [emptyResponse]) w in
  match route (mux w) (reqPath req) with
  | Some WhipHandler => world_of (whipHandler res req w1)
  | Some WhepHandler => world_of (whepHandler res req w1)
  | Some (FileServer _) => w1
  | Some (RedirectHandler url) =>
      updResponse res
        (fun r => mkResponse (respHeader r ++ [("Location", url)]) (Some 301) (respBody r)) w1
  | None => updResponse res (fun r => mkResponse (respHeader r) (Some 404) (respBody r)) w1
  end.

Definition hasGoroutine (g : Goroutine) (w : World) : bool :=
  bool_decide (g ∈ goroutines w).

Definition step (w : World) (ev : Event) : World :=
  match crashed w with Some _ => w | None =>
  match ev with
  | Serve req => if serving w then serve req w else w
  | ICEConnectionStateChanged pc s =>
      let w1 := updPC pc (with_ICE s) w in
      match pcs w !! pc ≫= pcOnICE with
      | Some (CloseOnFailed peerConnection) =>
          callback (onICEConnectionStateChange peerConnection s) w1
      | None => w1
      end
  | RemoteTrack pc =>
      match pcs w !! pc ≫= pcOnTrack with
      | Some ForwardToVideoTrack =>
          if hasGoroutine (TrackReadLoop pc) w then w
          else callback (onTrack pc pc) w
      | None => w
      end
  | RTPArrives pc r =>
      if hasGoroutine (TrackReadLoop pc) w
      then resume (TrackReadLoop pc) (trackReadLoop pc [r]) w else w
  | ReceiverRTCPArrives pc r =>
      if hasGoroutine (ReceiverRTCPLoop pc) w
      then resume (ReceiverRTCPLoop pc) (receiverRTCPLoop pc [r]) w else w
  | SenderRTCPArrives pc r =>
      if hasGoroutine (SenderRTCPLoop pc) w
      then resume (SenderRTCPLoop pc) (senderRTCPLoop pc [r]) w else w
  end end.

Definition run (w : World) (evs : list Event) : World := foldl step w evs.

(** The process once [main] has run: parked in [ListenAndServe] when all
    went well, down when [main] panicked. *)
Definition boot : World := callback main initial.

End Program.

(** ** The Packet Sink contract: [pkg/media/media.go] *)

Module media.

(** media.go:14-25 *)
Record Sample := mkSample {
  Data : list Byte.byte;
  Timestamp : Z;
  Duration : Z;
  PacketTimestamp : Z;
  PrevDroppedPackets : Z;
  Metadata : option string;
  RTPHeaders : list Z
}.

(** media.go:29-35: the interface; a method takes the sink and gives it
    back with the error it returns. *)
Class Writer (W : Type) := {
  WriteRTP : W -> Packet -> W * option Error;
  Close : W -> W * option Error
}.

(** Modelled from the spec: a Packet Sink.  The implementations of
    [media.Writer] are not among the sources; the spec gives the contract:
    a packet "is either fully accepted or rejected with an error describing
    cause (e.g., codec mismatch, sink closed)", and [Close] "releases
    resources; repeated calls after the first success return success".
    [releaseErr] is what releasing the underlying resource answers. *)
Record Sink := mkSink {
  accepted : list Packet;
  closed : bool;
  released : nat;
  releaseErr : option Error
}.

Definition NewSink (releaseErr : option Error) : Sink :=
  {| accepted := []; closed := false; released := 0; releaseErr := releaseErr |}.

Definition Sink_WriteRTP (s : Sink) (pkt : Packet) : Sink * option Error :=
  if closed s then (s, Some SinkClosed)
  else (mkSink (accepted s ++ [pkt]) (closed s) (released s) (releaseErr s), None).

Definition Sink_Close (s : Sink) : Sink * option Error :=
  if closed s then (s, None)
  else match releaseErr s with
       | Some e => (s, Some e)
       | None => (mkSink (accepted s) true (S (released s)) (releaseErr s), None)
       end.

#[global] Instance Sink_Writer : Writer Sink :=
  {| WriteRTP := Sink_WriteRTP; Close := Sink_Close |}.

Inductive Op := OpWrite (pkt : Packet) | OpClose.

Definition apply {W} `{Writer W} (s : W) (o : Op) : W :=
  match o with
  | OpWrite pkt => fst (WriteRTP s pkt)
  | OpClose => fst (Close s)
  end.

End media.

(** ** Vocabulary of the statements *)

Definition H264_96 : RTPCodecParameters :=
  {| Capability := {| MimeType := MimeTypeH264; ClockRate := 90000;
                      Channels := 0; SDPFmtpLine := EmptyString; RTCPFeedback := [] |};
     PayloadType := 96 |}.

(** The API object and the session [whipHandler] has built when it calls
    [writeAnswer]. *)
Definition whipAPI : API :=
  mkAPI (mkMediaEngine [H264_96] []) [IntervalPLI; DefaultInterceptors].

Definition whipSession : PeerConnection :=
  with_onTrack (Some ForwardToVideoTrack)
    (with_transceivers (fun l => l ++ [RTPCodecTypeVideo])
       (newPeerConnection whipAPI peerConnectionConfiguration)).

(** The same for [whepHandler]. *)
Definition whepAPI (E : Engine) : API :=
  mkAPI (defaultMediaEngine E) [PacketDumpRTCPOnly; SenderReport].

Definition whepSession (E : Engine) (t : nat) : PeerConnection :=
  with_senders (fun l => l ++ [t])
    (newPeerConnection (whepAPI E) peerConnectionConfiguration).

(** The calls each handler makes before [writeAnswer] all succeed. *)
Definition whipReady (E : Engine) (n : nat) : Prop :=
  failure E CallRegisterCodec 0 = None /\
  failure E CallIntervalPLI 0 = None /\
  failure E CallDefaultInterceptors 0 = None /\
  failure E CallNewPeerConnection n = None /\
  failure E CallAddTransceiver n = None.

Definition whepReady (E : Engine) (n : nat) : Prop :=
  failure E CallPacketDump 0 = None /\
  failure E CallSenderReport 0 = None /\
  failure E CallNewPeerConnection n = None /\
  failure E CallAddTrack n = None.

(** The engine can take session [pc] (in state [p]) through the whole
    exchange for [offer], with [answer] and the candidates [cs]. *)
Definition negotiable (E : Engine) (pc : nat) (p : PeerConnection)
    (offer answer : string) (cs : list string) : Prop :=
  offer <> EmptyString /\ wellFormed E offer = true /\
  negotiate E (pcAPI p) offer <> [] /\
  answerFor E offer = inr answer /\
  failure E CallSetLocalDescription pc = None /\
  gather E pc = Some cs.

Definition malformed (E : Engine) (offer : string) : Prop :=
  offer = EmptyString \/ wellFormed E offer = false.

(** A session and a response writer once [writeAnswer] has returned. *)
Definition answered (pc : nat) (offer : string) (neg : list RTPCodecParameters)
    (body : string) (p : PeerConnection) : PeerConnection :=
  with_local (mkSD SDPTypeAnswer body) ICEGatheringStateComplete
    (with_remote (mkSD SDPTypeOffer offer) neg
       (with_onICE (Some (CloseOnFailed pc)) p)).

Definition created (path body : string) (r : Response) : Response :=
  mkResponse (respHeader r ++ [("Location", path)])
             (Some (default StatusCreated (respStatus r)))
             (respBody r +:+ body).

Definition afterAnswer (E : Engine) (res pc : nat) (p : PeerConnection)
    (offer path answer : string) (cs : list string) (w : World) : World :=
  let body := answer +:+ String.concat EmptyString cs in
  mkWorld (videoTrack w) (tracks w)
    (alter (answered pc offer (negotiate E (pcAPI p) offer) body) pc (pcs w))
    (alter (created path body) res (responses w))
    (mux w) (serving w) (goroutines w)
    (log w ++ [ObsGatheringComplete pc; ObsHeader res "Location" path;
               ObsStatus res StatusCreated; ObsBody res body])
    (crashed w).

(** What a session has received, what the Relay Track was given. *)
Definition inbox (w : World) (s : nat) : list Packet :=
  default [] (pcInbox <$> pcs w !! s).

Definition writes (w : World) : list Packet :=
  default [] (videoTrack w ≫= fun t => written <$> tracks w !! t).

Definition consumers (w : World) : list nat :=
  default [] (videoTrack w ≫= fun t => bindings <$> tracks w !! t).

(** The open sessions with the forwarding track handler: the sessions
    [whipHandler] has set up and nothing has closed, whether or not their
    offer was accepted and whether or not their loops run yet. *)
Definition isPublisher (p : PeerConnection) : bool :=
  bool_decide (pcOnTrack p = Some ForwardToVideoTrack) && negb (pcClosed p).

Definition activePublishers (w : World) : list PeerConnection :=
  filter (fun p => isPublisher p = true) (pcs w).

(** ** Engines and inputs for the examples *)

Definition VP8_96 : RTPCodecParameters :=
  {| Capability := {| MimeType := "video/VP8"; ClockRate := 90000;
                      Channels := 0; SDPFmtpLine := EmptyString; RTCPFeedback := [] |};
     PayloadType := 96 |}.
Definition H264_102 : RTPCodecParameters :=
  {| Capability := {| MimeType := MimeTypeH264; ClockRate := 90000;
                      Channels := 0; SDPFmtpLine := EmptyString; RTCPFeedback := [] |};
     PayloadType := 102 |}.

(** Every call succeeds; an offer is well formed when it starts with the
    version line; each session gathers a host and a reflexive candidate. *)
Definition happy : Engine :=
  {| failure := fun _ _ => None;
     defaultMediaEngine := mkMediaEngine [VP8_96; H264_102] [];
     wellFormed := fun s => String.prefix "v=0" s;
     offered := fun _ => [MimeTypeH264];
     answerFor := fun _ => inr "v=0 answer;";
     gather := fun _ => Some ["a=candidate:host;"; "a=candidate:srflx;"];
     deliverErr := fun _ _ => None |}.

(** As [happy], but the delivery of packet 2 to session 1 fails. *)
Definition lossy : Engine :=
  {| failure := fun _ _ => None;
     defaultMediaEngine := mkMediaEngine [VP8_96; H264_102] [];
     wellFormed := fun s => String.prefix "v=0" s;
     offered := fun _ => [MimeTypeH264];
     answerFor := fun _ => inr "v=0 answer;";
     gather := fun _ => Some ["a=candidate:host;"; "a=candidate:srflx;"];
     deliverErr := fun c pkt =>
       if decide (c = 1%nat /\ SequenceNumber pkt = 2) then Some SinkClosed else None |}.

Definition P (n : Z) : Packet := mkPacket n (n * 3000) EmptyString.
Definition postWhip (offer : string) : Event := Serve (mkRequest "/whip" (inr offer)).
Definition postWhep (offer : string) : Event := Serve (mkRequest "/whep" (inr offer)).

(** A process that has booted on [happy] and has accepted a connection,
    with the response writer of the request at index 0. *)
Definition accepted0 : World :=
  set_responses (fun l => l ++ [emptyResponse]) (boot happy).
Definition whipRequest : Request := mkRequest "/whip" (inr "v=0 offer").
Definition whepRequest : Request := mkRequest "/whep" (inr "v=0 offer").

(** Session 0 publishes and its loops run, session 1 subscribes. *)
Definition streaming (E : Engine) : World :=
  run E (boot E) [postWhip "v=0 offer"; RemoteTrack 0; postWhep "v=0 offer"].

(** Requests whose offer is the empty string. *)
Definition emptyWhip : Request := mkRequest "/whip" (inr EmptyString).
Definition emptyWhep : Request := mkRequest "/whep" (inr EmptyString).

(** Two publishers, one after the other, both with their loops running. *)
Definition twoPublishers : World :=
  run happy (boot happy)
    [postWhip "v=0 first"; RemoteTrack 0; postWhip "v=0 second"; RemoteTrack 1].

(** The process after the engine reports the failure of session [pc]. *)
Definition iceFailed (E : Engine) (pc : nat) (w : World) : World :=
  step E w (ICEConnectionStateChanged pc ICEConnectionStateFailed).

(** ** How the process evolves *)

(** One session before and after a step that is not a delivery: the API
    it was built with, its senders, its track handler and what it has
    received stay; the negotiated codecs stay or are drawn from the API's
    codecs. *)
Definition sessionStep (p p' : PeerConnection) : Prop :=
  pcAPI p' = pcAPI p /\ pcSenders p' = pcSenders p /\
  pcOnTrack p' = pcOnTrack p /\ pcInbox p' = pcInbox p /\
  (forall c, c ∈ pcNegotiated p' -> c ∈ pcNegotiated p \/ c ∈ apiCodecs (pcAPI p)).

(** One track before and after such a step: consumers may leave. *)
Definition trackStep (tr tr' : Track) : Prop :=
  trackCodec tr' = trackCodec tr /\ written tr' = written tr /\
  bindings tr' `sublist_of` bindings tr.

(** Signalling, connectivity changes and teardown. *)
Definition signals (w w' : World) : Prop :=
  videoTrack w' = videoTrack w /\
  Forall2 trackStep (tracks w) (tracks w') /\
  Forall2 sessionStep (pcs w) (pcs w').

(** A session as a handler creates it. *)
Definition fresh (senders : list nat) (p : PeerConnection) : Prop :=
  pcSenders p = senders /\ pcInbox p = [] /\
  (pcOnTrack p = Some ForwardToVideoTrack ->
   apiMediaEngine (pcAPI p) = mkMediaEngine [H264_96] []) /\
  (forall c, c ∈ pcNegotiated p -> c ∈ apiCodecs (pcAPI p)).

(** What a handler has created when it reaches [writeAnswer], if anything:
    nothing, a publisher's session, or a subscriber's session registered
    on the Relay Track. *)
Definition opens (w w0 : World) : Prop :=
  videoTrack w0 = videoTrack w /\
  (pcs w0 = pcs w /\ tracks w0 = tracks w \/
   (exists p, fresh [] p /\ pcs w0 = pcs w ++ [p] /\ tracks w0 = tracks w) \/
   (exists t p, videoTrack w = Some t /\ fresh [t] p /\
      pcs w0 = pcs w ++ [p] /\
      tracks w0 = alter (with_bindings (fun l => l ++ [length (pcs w)])) t (tracks w))).

(** A packet written to the Relay Track and fanned out. *)
Definition forwards (E : Engine) (w w' : World) : Prop :=
  exists t tr pkt,
    videoTrack w = Some t /\ tracks w !! t = Some tr /\
    videoTrack w' = Some t /\
    tracks w' = alter (with_written (fun l => l ++ [pkt])) t (tracks w) /\
    pcs w' = pcs (fst (fanout E (bindings tr) pkt w)).

(** A call keeps a relation between the process before and after it,
    however it ends. *)
Definition preserves {A} (R : World -> World -> Prop) (m : M A) : Prop :=
  forall w, R w (world_of (m w)).

(** The invariant of a running process: the global [videoTrack] is the
    one track there is, an H264 track, whose consumers are distinct
    sessions; every sender of every session is bound to it; a session with
    the forwarding track handler was built on the H264-only media engine;
    and what a session negotiated comes from its API's codecs. *)
Definition goodSession (vt : nat) (p : PeerConnection) : Prop :=
  (forall t, t ∈ pcSenders p -> t = vt) /\
  (pcOnTrack p = Some ForwardToVideoTrack ->
   apiMediaEngine (pcAPI p) = mkMediaEngine [H264_96] []) /\
  (forall c, c ∈ pcNegotiated p -> c ∈ apiCodecs (pcAPI p)).

Definition Inv (w : World) : Prop :=
  videoTrack w = Some 0%nat /\
  (exists tr, tracks w = [tr] /\ MimeType (trackCodec tr) = MimeTypeH264 /\
     NoDup (bindings tr) /\ forall c, c ∈ bindings tr -> (c < length (pcs w))%nat) /\
  Forall (goodSession 0) (pcs w).

(** One session before and after a delivery: only what it has received
    may change. *)
Definition mediaStep (p p' : PeerConnection) : Prop :=
  pcAPI p' = pcAPI p /\ pcSenders p' = pcSenders p /\
  pcOnTrack p' = pcOnTrack p /\ pcNegotiated p' = pcNegotiated p.

(** ** Vocabulary for the further properties *)

(** The process where [writeAnswer] stops when it does not return: the
    ICE handler is installed, then the offer may be recorded, then the
    answer. *)
Definition offered1 (pc : nat) (w : World) : World :=
  updPC pc (with_onICE (Some (CloseOnFailed pc))) w.
Definition offered2 (E : Engine) (pc : nat) (p : PeerConnection)
    (offer : string) (w : World) : World :=
  updPC pc (with_remote (mkSD SDPTypeOffer offer) (negotiate E (pcAPI p) offer))
    (offered1 pc w).
Definition offered3 (E : Engine) (pc : nat) (p : PeerConnection)
    (offer answer : string) (w : World) : World :=
  updPC pc (with_local (mkSD SDPTypeAnswer answer) ICEGatheringStateGathering)
    (offered2 E pc p offer w).

(** Calls can be told apart. *)
#[global] Instance Call_eq_dec : EqDecision Call.
Proof. solve_decision. Defined.

(** As [happy], but every call to [c] fails with [e]. *)
Definition failing (c : Call) (e : Error) : Engine :=
  {| failure := fun c' _ => if decide (c' = c) then Some e else None;
     defaultMediaEngine := defaultMediaEngine happy;
     wellFormed := wellFormed happy;
     offered := offered happy;
     answerFor := answerFor happy;
     gather := gather happy;
     deliverErr := deliverErr happy |}.

(** The track [main] creates: H264 video, no clock rate set. *)
Definition relayTrack : Track :=
  mkTrack (mkCapability MimeTypeH264 0 0 EmptyString []) "video" "pion" [] [].

(** The mux after [main]'s three calls to [Handle]. *)
Definition routes : list (string * HandlerFunc) :=
  [("/", FileServer "."); ("/whep", WhepHandler); ("/whip", WhipHandler)].

(** The footprint of a handler, however it ends. *)
Definition footprint (w w' : World) : Prop :=
  (forall pc p, pcs w !! pc = Some p -> pcs w' !! pc = Some p) /\
  (forall p, pcs w' !! length (pcs w) = Some p -> pcClosed p = false) /\
  (length (pcs w') <= S (length (pcs w)))%nat /\
  videoTrack w' = videoTrack w /\
  (forall t tr, tracks w !! t = Some tr ->
     exists tr', tracks w' !! t = Some tr' /\ trackCodec tr' = trackCodec tr /\
       written tr' = written tr /\
       (bindings tr' = bindings tr \/
        bindings tr' = bindings tr ++ [length (pcs w)])) /\
  length (tracks w') = length (tracks w) /\
  (goroutines w' = goroutines w \/
   goroutines w' = goroutines w ++ [SenderRTCPLoop (length (pcs w))]).

(** Every ICE handler in the process captures the session it is
    installed on. *)
Definition ownHandlers (w : World) : Prop :=
  forall i p j, pcs w !! i = Some p -> pcOnICE p = Some (CloseOnFailed j) -> j = i.


(** [twoPublishers] after a third request to [/whip]. *)
Definition threePublishers : World :=
  world_of (whipHandler happy 2 whipRequest
              (set_responses (fun l => l ++ [emptyResponse]) twoPublishers)).

(** * Proofs *)

Ltac wsimpl :=
  cbn [videoTrack tracks pcs responses mux serving goroutines log crashed
       set_videoTrack set_tracks set_pcs set_responses set_mux set_serving
       set_goroutines observe crash updPC updTrack updResponse world_of] in *.
Ltac psimpl :=
  cbn [pcConfiguration pcAPI pcTransceivers pcSenders pcOnTrack pcOnICE
       pcRemote pcNegotiated pcLocal pcGathering pcICE pcClosed pcInbox
       with_senders with_transceivers with_onTrack with_onICE with_remote
       with_local with_ICE with_closed with_inbox
       trackCodec trackID trackStreamID bindings written
       with_bindings with_written
       respHeader respStatus respBody Type_ SDP
       fmap option_fmap option_map mbind option_bind] in *.

(** ** The monad *)

Lemma World_eq (w1 w2 : World) :
  videoTrack w1 = videoTrack w2 -> tracks w1 = tracks w2 ->
  pcs w1 = pcs w2 -> responses w1 = responses w2 -> mux w1 = mux w2 ->
  serving w1 = serving w2 -> goroutines w1 = goroutines w2 ->
  log w1 = log w2 -> crashed w1 = crashed w2 -> w1 = w2.
Proof. destruct w1, w2; simpl; intros; by subst. Qed.

Ltac weq := apply World_eq; wsimpl; try reflexivity.

Lemma bind_Done {A B} (m : M A) (f : A -> M B) w b w' :
  (m ≫= f) w = Done b w' ->
  exists a w1, m w = Done a w1 /\ f a w1 = Done b w'.
Proof.
  unfold mbind, M_bind. destruct (m w) as [a w1| |]; [eauto|discriminate..].
Qed.

Lemma bind_step {A B} (m : M A) (f : A -> M B) w a w1 :
  m w = Done a w1 -> (m ≫= f) w = f a w1.
Proof. unfold mbind, M_bind. by intros ->. Qed.

(** Run the first call of a sequence when it needs no case analysis. *)
Ltac mstep :=
  erewrite bind_step
    by (unfold modify, get, check, must, mret, M_ret, OnTrack, go,
          OnICEConnectionStateChange, GatheringCompletePromise, Header_Add,
          WriteHeader, Fprint, Printf; reflexivity).

Lemma bind_Panicked {A B} (m : M A) (f : A -> M B) w e w1 :
  m w = Panicked e w1 -> (m ≫= f) w = Panicked e w1.
Proof. unfold mbind, M_bind. by intros ->. Qed.

Lemma ret_Done {A} (a b : A) w w' :
  (mret a : M A) w = Done b w' -> b = a /\ w' = w.
Proof. unfold mret, M_ret. intros; by simplify_eq. Qed.

Lemma check_Done err w a w' : check err w = Done a w' -> err = None /\ w' = w.
Proof. destruct err; cbv; intros; by simplify_eq. Qed.

Lemma must_Done {A} (r : Error + A) w a w' :
  must r w = Done a w' -> r = inr a /\ w' = w.
Proof. destruct r; cbv; intros; by simplify_eq. Qed.

Lemma modify_Done f w a w' : modify f w = Done a w' -> w' = f w.
Proof. cbv; intros; by simplify_eq. Qed.

Lemma alter_snoc {A} (f : A -> A) (l : list A) (x : A) :
  alter f (length l) (l ++ [x]) = l ++ [f x].
Proof. by rewrite <- (Nat.add_0_r (length l)), alter_app_r. Qed.

Lemma lookup_snoc {A} (l : list A) (x : A) : (l ++ [x]) !! length l = Some x.
Proof. by rewrite lookup_app_r, Nat.sub_diag. Qed.

(** ** The engine's calls, one at a time *)

Lemma SetRemoteDescription_None E pc d w w' :
  SetRemoteDescription E pc d w = Done None w' ->
  SDP d <> EmptyString /\ wellFormed E (SDP d) = true /\
  exists p, pcs w !! pc = Some p /\ negotiate E (pcAPI p) (SDP d) <> [] /\
    w' = updPC pc (with_remote d (negotiate E (pcAPI p) (SDP d))) w.
Proof.
  unfold SetRemoteDescription. intros H.
  repeat case_match; simplify_eq/=.
  split; [done|]. split; [by destruct (wellFormed E (SDP d))|].
  eexists; split; [done|]. by match goal with H : _ = _ :: _ |- _ => rewrite H end.
Qed.

Lemma SetRemoteDescription_ok E pc d p w :
  SDP d <> EmptyString -> wellFormed E (SDP d) = true -> pcs w !! pc = Some p ->
  negotiate E (pcAPI p) (SDP d) <> [] ->
  SetRemoteDescription E pc d w =
  Done None (updPC pc (with_remote d (negotiate E (pcAPI p) (SDP d))) w).
Proof.
  intros Hne Hwf Hp Hneg. unfold SetRemoteDescription.
  rewrite decide_False, Hwf, Hp by done. simpl.
  by destruct (negotiate E (pcAPI p) (SDP d)).
Qed.

Lemma SetRemoteDescription_malformed E pc offer w :
  malformed E offer ->
  SetRemoteDescription E pc (mkSD SDPTypeOffer offer) w = Done (Some MalformedOffer) w.
Proof.
  unfold SetRemoteDescription; simpl. intros [->|Hwf]; [done|].
  rewrite Hwf. by case_decide.
Qed.

Lemma CreateAnswer_inr E pc a w w' :
  CreateAnswer E pc w = Done (inr a) w' ->
  w' = w /\ exists p offer, pcs w !! pc = Some p /\ pcRemote p = Some offer /\
    Type_ a = SDPTypeAnswer /\ answerFor E (SDP offer) = inr (SDP a).
Proof.
  unfold CreateAnswer. intros H.
  destruct (pcs w !! pc) as [p|] eqn:Hp; simpl in H; [|discriminate].
  destruct (pcRemote p) as [o|] eqn:Ho; [|discriminate].
  destruct (answerFor E (SDP o)) eqn:Ha; simplify_eq/=. eauto 10.
Qed.

Lemma SetLocalDescription_None E pc d w w' :
  SetLocalDescription E pc d w = Done None w' ->
  failure E CallSetLocalDescription pc = None /\
  w' = updPC pc (with_local d ICEGatheringStateGathering) w.
Proof. unfold SetLocalDescription. intros; case_match; by simplify_eq. Qed.

Lemma recvGatherComplete_Done E ch w a w' :
  recvGatherComplete E ch w = Done a w' ->
  exists p, pcs w !! ch = Some p /\
    (pcGathering p = ICEGatheringStateComplete /\ w' = w \/
     exists d cs, pcGathering p = ICEGatheringStateGathering /\
       pcLocal p = Some d /\ gather E ch = Some cs /\
       w' = observe (ObsGatheringComplete ch)
              (updPC ch (with_local (withCandidates cs d) ICEGatheringStateComplete) w)).
Proof.
  unfold recvGatherComplete. intros H.
  repeat case_match; simplify_eq/=; eauto 10.
Qed.

(** ** [writeAnswer] *)

Lemma afterAnswer_eq E res pc p offer path ans cs w :
  observe (ObsBody res (ans +:+ String.concat EmptyString cs))
    (updResponse res
       (fun r => mkResponse (respHeader r) (Some (default 200 (respStatus r)))
                   (respBody r +:+ (ans +:+ String.concat EmptyString cs)))
       (observe (ObsStatus res StatusCreated)
          (updResponse res
             (fun r => mkResponse (respHeader r)
                         (Some (default StatusCreated (respStatus r))) (respBody r))
             (observe (ObsHeader res "Location" path)
                (updResponse res
                   (fun r => mkResponse (respHeader r ++ [("Location", path)])
                               (respStatus r) (respBody r))
                   (observe (ObsGatheringComplete pc)
                      (updPC pc
                         (with_local (withCandidates cs (mkSD SDPTypeAnswer ans))
                            ICEGatheringStateComplete)
                         (updPC pc
                            (with_local (mkSD SDPTypeAnswer ans)
                               ICEGatheringStateGathering)
                            (updPC pc
                               (with_remote (mkSD SDPTypeOffer offer)
                                  (negotiate E (pcAPI p) offer))
                               (updPC pc (with_onICE (Some (CloseOnFailed pc))) w))))))))))
  = afterAnswer E res pc p offer path ans cs w.
Proof.
  unfold afterAnswer. weq.
  - rewrite !list_alter_alter_eq. by apply list_alter_ext.
  - rewrite !list_alter_alter_eq. apply list_alter_ext; [|done].
    intros [h [s|] b] _; reflexivity.
  - by rewrite <- !app_assoc.
Qed.

(** When [writeAnswer] returns, the engine took the session through the
    whole exchange and the process is exactly [afterAnswer]. *)
Lemma writeAnswer_Done E res pc offer path w w' :
  writeAnswer E res pc offer path w = Done tt w' ->
  exists p answer cs,
    pcs w !! pc = Some p /\ negotiable E pc p offer answer cs /\
    w' = afterAnswer E res pc p offer path answer cs w.
Proof.
  unfold writeAnswer. intros H.
  apply bind_Done in H as (? & w1 & ->%modify_Done & H).
  apply bind_Done in H as (err & w2 & H2 & H).
  apply bind_Done in H as (? & w3 & [-> ->]%check_Done & H).
  apply SetRemoteDescription_None in H2 as (Hne & Hwf & p1 & Hp1 & Hneg & ->).
  apply bind_Done in H as (ch & w4 & [-> ->]%ret_Done & H).
  apply bind_Done in H as (r & w5 & H5 & H).
  apply bind_Done in H as (answer & w6 & [-> ->]%must_Done & H).
  apply CreateAnswer_inr in H5 as (-> & p2 & o & Hp2 & Ho & Hty & Hans).
  apply bind_Done in H as (err' & w7 & H7 & H).
  apply bind_Done in H as (? & w8 & [-> ->]%check_Done & H).
  apply SetLocalDescription_None in H7 as [Hfail ->].
  apply bind_Done in H as (? & w9 & H9 & H).
  apply recvGatherComplete_Done in H9 as (p3 & Hp3 & H9).
  apply bind_Done in H as (? & w10 & ->%modify_Done & H).
  apply bind_Done in H as (? & w11 & ->%modify_Done & H).
  apply bind_Done in H as (d & w12 & H12 & H).
  wsimpl. rewrite !list_lookup_alter_eq in *.
  destruct (pcs w !! pc) as [p|] eqn:Hp; psimpl; simplify_eq.
  psimpl.
  destruct H9 as [[? _]|(d' & cs & _ & ? & Hg & ->)]; simplify_eq.
  unfold LocalDescription in H12. wsimpl.
  rewrite !list_lookup_alter_eq, Hp in H12. psimpl. simplify_eq.
  cbv [Fprint modify] in H. simplify_eq.
  destruct d' as [ty ans]; psimpl; subst.
  exists p, ans, cs. split; [done|]. split; [done|].
  apply afterAnswer_eq.
Qed.

(** Conversely, an exchange the engine can carry out makes [writeAnswer]
    return. *)
Lemma writeAnswer_accepts E res pc p offer path answer cs w :
  pcs w !! pc = Some p -> negotiable E pc p offer answer cs ->
  writeAnswer E res pc offer path w =
  Done tt (afterAnswer E res pc p offer path answer cs w).
Proof.
  intros Hp (Hne & Hwf & Hneg & Hans & Hfail & Hg). unfold writeAnswer.
  mstep.
  erewrite bind_step; cycle 1.
  { apply SetRemoteDescription_ok
      with (p := with_onICE (Some (CloseOnFailed pc)) p); try done.
    wsimpl. by rewrite list_lookup_alter_eq, Hp. }
  psimpl.
  mstep.
  mstep.
  erewrite bind_step; cycle 1.
  { unfold CreateAnswer. wsimpl. rewrite !list_lookup_alter_eq, Hp. psimpl.
    rewrite Hans. reflexivity. }
  mstep.
  erewrite bind_step; cycle 1.
  { unfold SetLocalDescription. rewrite Hfail. reflexivity. }
  mstep.
  erewrite bind_step; cycle 1.
  { unfold recvGatherComplete. wsimpl. rewrite !list_lookup_alter_eq, Hp. psimpl.
    rewrite Hg. reflexivity. }
  mstep.
  mstep.
  erewrite bind_step; cycle 1.
  { unfold LocalDescription. wsimpl. rewrite !list_lookup_alter_eq, Hp. psimpl.
    reflexivity. }
  unfold Fprint, modify. f_equal. apply afterAnswer_eq.
Qed.

(** ** The handlers *)

Lemma whipHandler_cases E res req w :
  (exists e, whipHandler E res req w = Panicked e w) \/
  (exists e, whipHandler E res req w =
     Panicked e (set_pcs (fun l => l ++ [newPeerConnection whipAPI peerConnectionConfiguration]) w)) \/
  (exists offer, reqBody req = inr offer /\ whipReady E (length (pcs w)) /\
     whipHandler E res req w =
     writeAnswer E res (length (pcs w)) offer "/whip"
       (set_pcs (fun l => l ++ [whipSession]) w)).
Proof.
  unfold whipHandler, whipReady, RegisterCodec, construct,
    RegisterDefaultInterceptors, NewPeerConnection, AddTransceiverFromKind,
    OnTrack, mbind, M_bind, must, check, panic, modify, mret, M_ret.
  destruct (reqBody req) as [e|offer]; [by eauto|].
  destruct (failure E CallRegisterCodec 0); [by eauto|].
  destruct (failure E CallIntervalPLI 0); [by eauto|].
  destruct (failure E CallDefaultInterceptors 0); [by eauto|].
  destruct (failure E CallNewPeerConnection (length (pcs w))); [by eauto|].
  destruct (failure E CallAddTransceiver (length (pcs w))); [by eauto|].
  right; right. exists offer. split; [done|]. split; [done|].
  f_equal. weq. by rewrite list_alter_alter_eq, alter_snoc.
Qed.

Lemma whepHandler_cases E res req w :
  (exists e, whepHandler E res req w = Panicked e w) \/
  (exists e, whepHandler E res req w =
     Panicked e (set_pcs (fun l => l ++ [newPeerConnection (whepAPI E) peerConnectionConfiguration]) w)) \/
  (exists offer t, reqBody req = inr offer /\ whepReady E (length (pcs w)) /\
     videoTrack w = Some t /\
     whepHandler E res req w =
     writeAnswer E res (length (pcs w)) offer "/whep"
       (set_goroutines (fun l => l ++ [SenderRTCPLoop (length (pcs w))])
          (updTrack t (with_bindings (fun l => l ++ [length (pcs w)]))
             (set_pcs (fun l => l ++ [whepSession E t]) w)))).
Proof.
  unfold whepHandler, whepReady, construct, NewPeerConnection, AddTrack, go, get,
    mbind, M_bind, must, check, panic, modify, mret, M_ret.
  destruct (reqBody req) as [e|offer]; [by eauto|].
  destruct (failure E CallPacketDump 0); [by eauto|].
  destruct (failure E CallSenderReport 0); [by eauto|].
  destruct (failure E CallNewPeerConnection (length (pcs w))); [by eauto|].
  wsimpl.
  destruct (videoTrack w) as [t|]; [|by eauto].
  destruct (failure E CallAddTrack (length (pcs w))); [by eauto|].
  right; right. exists offer, t. split; [done|]. split; [done|]. split; [done|].
  f_equal. weq. by rewrite alter_snoc.
Qed.

Lemma whipHandler_Done E res req w w' :
  whipHandler E res req w = Done tt w' ->
  exists offer answer cs,
    reqBody req = inr offer /\ whipReady E (length (pcs w)) /\
    negotiable E (length (pcs w)) whipSession offer answer cs /\
    w' = afterAnswer E res (length (pcs w)) whipSession offer "/whip" answer cs
           (set_pcs (fun l => l ++ [whipSession]) w).
Proof.
  intros H.
  destruct (whipHandler_cases E res req w)
    as [[e He]|[[e He]|(offer & Hreq & Hready & Hw)]]; [congruence..|].
  rewrite Hw in H. apply writeAnswer_Done in H as (p & answer & cs & Hp & Hn & ->).
  wsimpl. rewrite lookup_snoc in Hp. simplify_eq. eauto 10.
Qed.

Lemma whepHandler_Done E res req w w' :
  whepHandler E res req w = Done tt w' ->
  exists offer t answer cs,
    reqBody req = inr offer /\ whepReady E (length (pcs w)) /\
    videoTrack w = Some t /\
    negotiable E (length (pcs w)) (whepSession E t) offer answer cs /\
    w' = afterAnswer E res (length (pcs w)) (whepSession E t) offer "/whep" answer cs
           (set_goroutines (fun l => l ++ [SenderRTCPLoop (length (pcs w))])
              (updTrack t (with_bindings (fun l => l ++ [length (pcs w)]))
                 (set_pcs (fun l => l ++ [whepSession E t]) w))).
Proof.
  intros H.
  destruct (whepHandler_cases E res req w)
    as [[e He]|[[e He]|(offer & t & Hreq & Hready & Ht & Hw)]]; [congruence..|].
  rewrite Hw in H. apply writeAnswer_Done in H as (p & answer & cs & Hp & Hn & ->).
  wsimpl. rewrite lookup_snoc in Hp. simplify_eq. eauto 10.
Qed.

(** What both handlers leave behind when they return: the handler's path,
    the session it created and the exchange the engine carried out. *)
Lemma handler_Done E res req w w' path :
  whipHandler E res req w = Done tt w' /\ path = "/whip" \/
  whepHandler E res req w = Done tt w' /\ path = "/whep" ->
  exists p w0 offer answer cs,
    reqBody req = inr offer /\
    negotiable E (length (pcs w)) p offer answer cs /\
    pcs w0 = pcs w ++ [p] /\ responses w0 = responses w /\ log w0 = log w /\
    w' = afterAnswer E res (length (pcs w)) p offer path answer cs w0.
Proof.
  intros [[H ->]|[H ->]].
  - apply whipHandler_Done in H as (offer & answer & cs & ? & ? & ? & ->).
    by exists whipSession, (set_pcs (fun l => l ++ [whipSession]) w),
      offer, answer, cs.
  - apply whepHandler_Done in H as (offer & t & answer & cs & ? & ? & ? & ? & ->).
    by exists (whepSession E t),
      (set_goroutines (fun l => l ++ [SenderRTCPLoop (length (pcs w))])
         (updTrack t (with_bindings (fun l => l ++ [length (pcs w)]))
            (set_pcs (fun l => l ++ [whepSession E t]) w))),
      offer, answer, cs.
Qed.

(** C1: for every offer that negotiates successfully through [whipHandler]
    or [whepHandler], the handler's observable actions are, in this order,
    the gathering-complete signal of the new session, the [Location]
    header, the status and the body; the body is the answer followed by
    every candidate the session gathered, which is the session's local
    description once gathering is complete. *)
Theorem answer_after_gathering E res req w w' path :
  whipHandler E res req w = Done tt w' /\ path = "/whip" \/
  whepHandler E res req w = Done tt w' /\ path = "/whep" ->
  exists offer answer cs,
    reqBody req = inr offer /\ answerFor E offer = inr answer /\
    gather E (length (pcs w)) = Some cs /\
    log w' = log w ++
      [ObsGatheringComplete (length (pcs w));
       ObsHeader res "Location" path;
       ObsStatus res StatusCreated;
       ObsBody res (answer +:+ String.concat EmptyString cs)] /\
    pcs w' !! length (pcs w) ≫= pcLocal =
      Some (mkSD SDPTypeAnswer (answer +:+ String.concat EmptyString cs)) /\
    pcGathering <$> pcs w' !! length (pcs w) = Some ICEGatheringStateComplete.
Proof.
  intros H.
  apply handler_Done in H
    as (p & w0 & offer & answer & cs & Hreq & Hn & Hpcs & _ & Hlog & ->).
  destruct Hn as (_ & _ & _ & Hans & _ & Hg).
  exists offer, answer, cs. unfold afterAnswer; wsimpl.
  rewrite Hpcs, Hlog, alter_snoc, lookup_snoc. done.
Qed.

(** The subscriber's first request on [happy]. *)
Lemma answer_after_gathering_witness :
  exists offer answer cs,
    reqBody whepRequest = inr offer /\ answerFor happy offer = inr answer /\
    gather happy (length (pcs accepted0)) = Some cs /\
    log (world_of (whepHandler happy 0 whepRequest accepted0)) = log accepted0 ++
      [ObsGatheringComplete (length (pcs accepted0));
       ObsHeader 0 "Location" "/whep";
       ObsStatus 0 StatusCreated;
       ObsBody 0 (answer +:+ String.concat EmptyString cs)] /\
    pcs (world_of (whepHandler happy 0 whepRequest accepted0))
      !! length (pcs accepted0) ≫= pcLocal =
      Some (mkSD SDPTypeAnswer (answer +:+ String.concat EmptyString cs)) /\
    pcGathering <$> pcs (world_of (whepHandler happy 0 whepRequest accepted0))
      !! length (pcs accepted0) = Some ICEGatheringStateComplete.
Proof.
  apply (answer_after_gathering happy 0 whepRequest accepted0 _ "/whep").
  right. split; [vm_compute; reflexivity|reflexivity].
Defined.

(** ** Loops, failures and teardown *)

Lemma hasGoroutine_true g w : g ∈ goroutines w -> hasGoroutine g w = true.
Proof. intros. unfold hasGoroutine. by apply bool_decide_eq_true. Qed.

Lemma step_crashed E e w ev : step E (crash e w) ev = crash e w.
Proof. reflexivity. Qed.

Lemma senderRTCPLoop_returns pc n e rest w :
  senderRTCPLoop pc (replicate n None ++ Some e :: rest) w = Done tt w.
Proof.
  unfold senderRTCPLoop.
  induction n as [|n IH]; simpl;
    unfold senderRTCPBody, RTPSender_Read, readRTCP, mbind, M_bind, mret, M_ret;
    destruct (isClosed w pc); try reflexivity.
  apply IH.
Qed.

(** C9: when [rtpSender.Read] gives the subscriber's RTCP goroutine an
    error, the goroutine returns: as a loop, after any number of good reads
    it ends in [Done] and leaves the process as it was; as a step of the
    process, the goroutine is gone, nothing has crashed, and every session,
    track and response is untouched. *)
Theorem sender_rtcp_loop_returns E w pc e :
  crashed w = None -> SenderRTCPLoop pc ∈ goroutines w ->
  (forall n rest,
     senderRTCPLoop pc (replicate n None ++ Some e :: rest) w = Done tt w) /\
  step E w (SenderRTCPArrives pc (Some e)) =
    set_goroutines (filter (fun g => g ≠ SenderRTCPLoop pc)) w.
Proof.
  intros Hc Hg. split; [intros; apply senderRTCPLoop_returns|].
  unfold step. rewrite Hc, (hasGoroutine_true _ _ Hg).
  unfold resume. by rewrite (senderRTCPLoop_returns pc 0 e []).
Qed.

Lemma trackRead_error E w pc e :
  exists e', trackReadLoop E pc [inl e] w = Panicked e' w.
Proof.
  unfold trackReadLoop, forLoop, trackReadBody, TrackRemote_ReadRTP,
    mbind, M_bind, must, panic.
  destruct (isClosed w pc); eauto.
Qed.

Lemma trackRead_closed E w pc r :
  isClosed w pc = true -> trackReadLoop E pc [r] w = Panicked EOF w.
Proof.
  intros Hc.
  unfold trackReadLoop, forLoop, trackReadBody, TrackRemote_ReadRTP,
    mbind, M_bind, must, panic.
  by rewrite Hc.
Qed.

Lemma trackRead_forward_error E w pc pkt e w1 :
  isClosed w pc = false ->
  WriteRTP E (videoTrack w) pkt w = Done (Some e) w1 ->
  trackReadLoop E pc [inr pkt] w = Panicked e w1.
Proof.
  intros Hc Hw.
  unfold trackReadLoop, forLoop, trackReadBody, TrackRemote_ReadRTP,
    mbind, M_bind, must, panic, get, mret, M_ret, check.
  by rewrite Hc, Hw.
Qed.

Lemma receiverRTCP_error w pc e :
  exists e', receiverRTCPLoop pc [Some e] w = Panicked e' w.
Proof.
  unfold receiverRTCPLoop, forLoop, receiverRTCPBody, RTPReceiver_ReadRTCP,
    readRTCP, mbind, M_bind, check, panic.
  destruct (isClosed w pc); eauto.
Qed.

(** C4, amended: every error in the publisher's loops is raised as a
    panic on the loop's goroutine.  A failed packet read, a failed
    [WriteRTP] (after the fan-out it attempted) and a failed RTCP read each
    bring the process down; the owning session is not closed (the sessions
    are as before), and once down the process takes no further step, so the
    read loop forwards nothing more. *)
Theorem publisher_error_panics E w pc :
  crashed w = None ->
  TrackReadLoop pc ∈ goroutines w -> ReceiverRTCPLoop pc ∈ goroutines w ->
  (forall e, exists e', step E w (RTPArrives pc (inl e)) = crash e' w) /\
  (forall pkt e w1,
     isClosed w pc = false ->
     WriteRTP E (videoTrack w) pkt w = Done (Some e) w1 ->
     step E w (RTPArrives pc (inr pkt)) = crash e w1) /\
  (forall e, exists e', step E w (ReceiverRTCPArrives pc (Some e)) = crash e' w) /\
  (forall e w0 ev, step E (crash e w0) ev = crash e w0 /\ pcs (crash e w0) = pcs w0).
Proof.
  intros Hc Ht Hr. unfold step. rewrite Hc.
  rewrite (hasGoroutine_true _ _ Ht), (hasGoroutine_true _ _ Hr).
  unfold resume. repeat split.
  - intros e. destruct (trackRead_error E w pc e) as [e' ->]. eauto.
  - intros pkt e w1 Hcl Hw. by rewrite (trackRead_forward_error E w pc pkt e w1).
  - intros e. destruct (receiverRTCP_error w pc e) as [e' ->]. eauto.
Qed.

Lemma writeAnswer_malformed E res pc offer path w :
  malformed E offer ->
  writeAnswer E res pc offer path w =
  Panicked MalformedOffer (updPC pc (with_onICE (Some (CloseOnFailed pc))) w).
Proof.
  intros Hm. unfold writeAnswer. mstep.
  erewrite bind_step by (by apply SetRemoteDescription_malformed).
  reflexivity.
Qed.

Lemma whipHandler_ready E res req offer w :
  reqBody req = inr offer -> whipReady E (length (pcs w)) ->
  whipHandler E res req w =
  writeAnswer E res (length (pcs w)) offer "/whip"
    (set_pcs (fun l => l ++ [whipSession]) w).
Proof.
  intros Hreq (H1 & H2 & H3 & H4 & H5).
  unfold whipHandler, RegisterCodec, construct, RegisterDefaultInterceptors,
    NewPeerConnection, AddTransceiverFromKind, OnTrack, mbind, M_bind, must,
    check, panic, modify, mret, M_ret.
  rewrite Hreq, H1, H2, H3, H4, H5.
  f_equal. weq. by rewrite list_alter_alter_eq, alter_snoc.
Qed.

Lemma whepHandler_ready E res req offer t w :
  reqBody req = inr offer -> whepReady E (length (pcs w)) ->
  videoTrack w = Some t ->
  whepHandler E res req w =
  writeAnswer E res (length (pcs w)) offer "/whep"
    (set_goroutines (fun l => l ++ [SenderRTCPLoop (length (pcs w))])
       (updTrack t (with_bindings (fun l => l ++ [length (pcs w)]))
          (set_pcs (fun l => l ++ [whepSession E t]) w))).
Proof.
  intros Hreq (H1 & H2 & H3 & H4) Ht.
  unfold whepHandler, construct, NewPeerConnection, AddTrack, go, get,
    mbind, M_bind, must, check, panic, modify, mret, M_ret.
  rewrite Hreq, H1, H2, H3. wsimpl. rewrite Ht, H4.
  f_equal. weq. by rewrite alter_snoc.
Qed.

(** C5, amended: for a malformed offer (the empty string included)
    [SetRemoteDescription] fails with [MalformedOffer] and the handler
    panics with it.  The response writer and the log are untouched, the
    session the handler had created stays in the process; [/whip] leaves
    the Relay Track as it was, [/whep] has already added the session to the
    track's consumers and started its RTCP goroutine. *)
Theorem malformed_offer_panics E res offer w t :
  malformed E offer ->
  whipReady E (length (pcs w)) -> whepReady E (length (pcs w)) ->
  videoTrack w = Some t ->
  whipHandler E res (mkRequest "/whip" (inr offer)) w =
    Panicked MalformedOffer
      (set_pcs (fun l => l ++ [with_onICE (Some (CloseOnFailed (length (pcs w)))) whipSession]) w) /\
  whepHandler E res (mkRequest "/whep" (inr offer)) w =
    Panicked MalformedOffer
      (set_goroutines (fun l => l ++ [SenderRTCPLoop (length (pcs w))])
         (updTrack t (with_bindings (fun l => l ++ [length (pcs w)]))
            (set_pcs (fun l => l ++ [with_onICE (Some (CloseOnFailed (length (pcs w))))
                                       (whepSession E t)]) w))).
Proof.
  intros Hm Hwhip Hwhep Ht. split.
  - rewrite (whipHandler_ready E res _ offer) by done.
    rewrite writeAnswer_malformed by done.
    f_equal. weq. by rewrite alter_snoc.
  - rewrite (whepHandler_ready E res _ offer t) by done.
    rewrite writeAnswer_malformed by done.
    f_equal. weq. by rewrite alter_snoc.
Qed.

Lemma filter_snoc {A} (P : A -> Prop) `{forall x, Decision (P x)} (l : list A) x :
  P x -> filter P (l ++ [x]) = filter P l ++ [x].
Proof. intros. rewrite filter_app. f_equal. by rewrite filter_cons_True. Qed.

Ltac by_compute := vm_compute; first [reflexivity | exact I | done].
Ltac elem_compute := apply (bool_decide_unpack _); vm_compute; exact I.

(** The subscriber of [streaming happy] meets the end of its RTCP stream. *)
Lemma sender_rtcp_loop_returns_witness :
  step happy (streaming happy) (SenderRTCPArrives 1 (Some EOF)) =
    set_goroutines (filter (fun g => g ≠ SenderRTCPLoop 1)) (streaming happy).
Proof.
  apply (sender_rtcp_loop_returns happy (streaming happy) 1 EOF);
    [by_compute | elem_compute].
Defined.

(** A failed packet read takes the process down.  On [lossy], the
    delivery of packet 2 to the subscriber fails: the process is down with
    that error, the publisher's session was not closed, and packet 3 is
    never written. *)
Lemma forwarding_error_counterexample :
  crashed (run happy (streaming happy) [RTPArrives 0 (inl EOF)]) = Some EOF /\
  crashed (run lossy (streaming lossy)
             [RTPArrives 0 (inr (P 1)); RTPArrives 0 (inr (P 2))]) = Some SinkClosed /\
  isClosed (run lossy (streaming lossy)
             [RTPArrives 0 (inr (P 1)); RTPArrives 0 (inr (P 2))]) 0 = false /\
  writes (run lossy (streaming lossy)
             [RTPArrives 0 (inr (P 1)); RTPArrives 0 (inr (P 2));
              RTPArrives 0 (inr (P 3))]) = [P 1; P 2].
Proof. by_compute. Qed.

(** The same failure, as a step of [streaming lossy]. *)
Lemma publisher_error_panics_witness :
  exists w1,
    WriteRTP lossy (videoTrack (streaming lossy)) (P 2) (streaming lossy)
      = Done (Some SinkClosed) w1 /\
    step lossy (streaming lossy) (RTPArrives 0 (inr (P 2))) = crash SinkClosed w1.
Proof.
  eexists. split; [by_compute|].
  apply (publisher_error_panics lossy (streaming lossy) 0);
    [by_compute | elem_compute | elem_compute | by_compute | by_compute].
Defined.

(** The empty offer on [happy]: [whipHandler] panics, the response writer
    is as it was, and there is one session where there was none; after
    [whepHandler] the Relay Track has a consumer it did not have. *)
Lemma malformed_offer_counterexample :
  whipHandler happy 0 emptyWhip accepted0 =
    Panicked MalformedOffer (world_of (whipHandler happy 0 emptyWhip accepted0)) /\
  pcs accepted0 = [] /\
  length (pcs (world_of (whipHandler happy 0 emptyWhip accepted0))) = 1%nat /\
  responses (world_of (whipHandler happy 0 emptyWhip accepted0)) = [emptyResponse] /\
  consumers accepted0 = [] /\
  consumers (world_of (whepHandler happy 0 emptyWhep accepted0)) = [0%nat].
Proof. by_compute. Qed.

(** The empty offer on [happy], through the theorem. *)
Lemma malformed_offer_panics_witness :
  whipHandler happy 0 (mkRequest "/whip" (inr EmptyString)) accepted0 =
    Panicked MalformedOffer
      (set_pcs (fun l => l ++ [with_onICE (Some (CloseOnFailed 0)) whipSession]) accepted0) /\
  whepHandler happy 0 (mkRequest "/whep" (inr EmptyString)) accepted0 =
    Panicked MalformedOffer
      (set_goroutines (fun l => l ++ [SenderRTCPLoop 0])
         (updTrack 0 (with_bindings (fun l => l ++ [0%nat]))
            (set_pcs (fun l => l ++ [with_onICE (Some (CloseOnFailed 0))
                                       (whepSession happy 0)]) accepted0))).
Proof.
  apply (malformed_offer_panics happy 0 EmptyString accepted0 0);
    [by left | by_compute | by_compute | by_compute].
Defined.

(** Two requests to [/whip] in a row on [happy]: two active publishers,
    the second answered with 201, and both write to the Relay Track. *)
Lemma second_publisher_counterexample :
  length (activePublishers twoPublishers) = 2%nat /\
  respStatus <$> responses twoPublishers !! 1%nat = Some (Some 201) /\
  writes (run happy twoPublishers
            [RTPArrives 0 (inr (P 1)); RTPArrives 1 (inr (P 2))]) = [P 1; P 2].
Proof. by_compute. Qed.

Lemma ice_failed_step E w pc p :
  crashed w = None -> pcs w !! pc = Some p ->
  pcOnICE p = Some (CloseOnFailed pc) ->
  iceFailed E pc w =
  set_tracks (fmap (with_bindings (filter (fun c => c ≠ pc))))
    (updPC pc with_closed
       (observe (ObsPrint ("ICE Connection State has changed: failed" +:+ newline))
          (updPC pc (with_ICE ICEConnectionStateFailed) w))).
Proof.
  intros Hc Hp Hh. unfold iceFailed, step. rewrite Hc, Hp. simpl. rewrite Hh.
  reflexivity.
Qed.

Lemma ice_other_step E w pc p s :
  crashed w = None -> pcs w !! pc = Some p ->
  pcOnICE p = Some (CloseOnFailed pc) -> s <> ICEConnectionStateFailed ->
  step E w (ICEConnectionStateChanged pc s) =
  observe (ObsPrint ("ICE Connection State has changed: "
                       +:+ ICEConnectionState_String s +:+ newline))
    (updPC pc (with_ICE s) w).
Proof.
  intros Hc Hp Hh Hs. unfold step. rewrite Hc, Hp. simpl. rewrite Hh.
  unfold callback, onICEConnectionStateChange, Printf, mbind, M_bind, modify.
  by rewrite decide_False.
Qed.

(** C6, amended: when the engine reports [failed] for a session, the
    handler installed by [writeAnswer] closes that session: it is marked
    closed and no track has it among its consumers; every other session is
    unchanged, every track keeps its codec, its packets and its other
    consumers, no goroutine is touched and nothing crashes at that step.
    Any other state closes nothing.  There is no producer slot to release,
    and a publisher's read loop that reads from the closed session gets
    the end-of-stream error and panics, which brings the process down. *)
Theorem ice_failure_closes_session E w pc p :
  crashed w = None -> pcs w !! pc = Some p ->
  pcOnICE p = Some (CloseOnFailed pc) ->
  pcClosed <$> pcs (iceFailed E pc w) !! pc = Some true /\
  (forall t tr', tracks (iceFailed E pc w) !! t = Some tr' -> pc ∉ bindings tr') /\
  (forall other, other <> pc -> pcs (iceFailed E pc w) !! other = pcs w !! other) /\
  (forall t tr, tracks w !! t = Some tr ->
     exists tr', tracks (iceFailed E pc w) !! t = Some tr' /\
       trackCodec tr' = trackCodec tr /\ written tr' = written tr /\
       bindings tr' = filter (fun c => c ≠ pc) (bindings tr)) /\
  crashed (iceFailed E pc w) = None /\
  goroutines (iceFailed E pc w) = goroutines w /\
  (forall s, s <> ICEConnectionStateFailed ->
     pcClosed <$> pcs (step E w (ICEConnectionStateChanged pc s)) !! pc
       = Some (pcClosed p) /\
     tracks (step E w (ICEConnectionStateChanged pc s)) = tracks w) /\
  (TrackReadLoop pc ∈ goroutines w ->
   forall r, crashed (step E (iceFailed E pc w) (RTPArrives pc r)) = Some EOF).
Proof.
  intros Hc Hp Hh. rewrite (ice_failed_step E w pc p) by done. wsimpl.
  repeat split.
  - rewrite list_alter_alter_eq, list_lookup_alter_eq, Hp. reflexivity.
  - intros t tr' Ht. rewrite list_lookup_fmap in Ht.
    destruct (tracks w !! t) as [tr|]; [|discriminate].
    injection Ht as <-. psimpl.
    rewrite list_elem_of_filter. by intros [Hne _].
  - intros other Hne. by rewrite !list_lookup_alter_ne.
  - intros t tr Ht. rewrite list_lookup_fmap, Ht. eexists. split; [reflexivity|done].
  - done.
  - rewrite (ice_other_step E w pc p) by done. wsimpl.
    by rewrite list_lookup_alter_eq, Hp.
  - by rewrite (ice_other_step E w pc p) by done.
  - intros Hg r. unfold step at 1. wsimpl. rewrite Hc.
    rewrite hasGoroutine_true by done.
    unfold resume. rewrite trackRead_closed; [done|].
    unfold isClosed. wsimpl.
    by rewrite list_alter_alter_eq, list_lookup_alter_eq, Hp.
Qed.

(** The publisher of [streaming happy] loses connectivity; its read loop
    then takes the process down, although the subscriber's session was
    never closed. *)
Lemma ice_failure_counterexample :
  crashed (streaming happy) = None /\
  crashed (run happy (streaming happy)
             [ICEConnectionStateChanged 0 ICEConnectionStateFailed;
              RTPArrives 0 (inr (P 1))]) = Some EOF /\
  isClosed (run happy (streaming happy)
             [ICEConnectionStateChanged 0 ICEConnectionStateFailed;
              RTPArrives 0 (inr (P 1))]) 1 = false.
Proof. by_compute. Qed.

(** The subscriber of [streaming happy] loses connectivity: it leaves the
    consumer set and the publisher's session is as before. *)
Lemma ice_failure_closes_session_witness :
  pcClosed <$> pcs (iceFailed happy 1 (streaming happy)) !! 1%nat = Some true /\
  consumers (streaming happy) = [1%nat] /\
  consumers (iceFailed happy 1 (streaming happy)) = [] /\
  pcs (iceFailed happy 1 (streaming happy)) !! 0%nat = pcs (streaming happy) !! 0%nat.
Proof.
  destruct (ice_failure_closes_session happy (streaming happy) 1
              (default whipSession (pcs (streaming happy) !! 1%nat)))
    as (H1 & _ & H3 & _); [by_compute..|].
  split; [exact H1|]. split; [by_compute|]. split; [by_compute|].
  by apply H3.
Defined.

Lemma closed_sink_fixed (s : media.Sink) (ops : list media.Op) :
  media.closed s = true -> foldl media.apply s ops = s.
Proof.
  intros Hc. induction ops as [|[pkt|] ops IH]; [done|..]; simpl;
    unfold media.Sink_WriteRTP, media.Sink_Close; by rewrite Hc.
Qed.

(** C8: after a [Close] that returned success, [Close] returns success
    again and leaves the sink as it is, as does every further sequence of
    writes and closes; a successful [Close] releases at most one resource. *)
Theorem sink_close_idempotent (s s1 : media.Sink) :
  media.Close s = (s1, None) ->
  media.Close s1 = (s1, None) /\
  (forall ops, foldl media.apply s1 ops = s1) /\
  (media.released s1 <= S (media.released s))%nat.
Proof.
  simpl. unfold media.Sink_Close at 1. intros H.
  assert (media.closed s1 = true) as Hc.
  { destruct (media.closed s) eqn:Hs; [by simplify_eq|].
    destruct (media.releaseErr s); by simplify_eq. }
  split; [unfold media.Sink_Close; by rewrite Hc|].
  split; [intros; by apply closed_sink_fixed|].
  destruct (media.closed s); [injection H as <-; lia|].
  destruct (media.releaseErr s); [discriminate|].
  injection H as <-. simpl. lia.
Qed.

(** From a new sink, no sequence of writes and closes releases the
    resource more than once. *)
Lemma sink_released_once e (ops : list media.Op) :
  (media.released (foldl media.apply (media.NewSink e) ops) <= 1)%nat.
Proof.
  cut (forall s, media.released s = (if media.closed s then 1 else 0)%nat ->
         (media.released (foldl media.apply s ops)
            = if media.closed (foldl media.apply s ops) then 1 else 0)%nat).
  { intros H. rewrite (H (media.NewSink e) eq_refl). case_match; lia. }
  induction ops as [|[pkt|] ops IH]; intros s Hs; [done|..]; apply IH; simpl;
    unfold media.Sink_WriteRTP, media.Sink_Close;
    destruct (media.closed s) eqn:Hc; simpl; try done;
    destruct (media.releaseErr s); simpl; rewrite ?Hc; try done; simpl; lia.
Qed.

(** Closing a new sink twice. *)
Lemma sink_close_idempotent_witness :
  media.Close (fst (media.Close (media.NewSink None)))
    = (fst (media.Close (media.NewSink None)), None).
Proof.
  apply (sink_close_idempotent (media.NewSink None)). reflexivity.
Defined.

(** ** Frames *)

Lemma sessionStep_refl p : sessionStep p p.
Proof. repeat split; auto. Qed.

Lemma sessionStep_trans p1 p2 p3 :
  sessionStep p1 p2 -> sessionStep p2 p3 -> sessionStep p1 p3.
Proof.
  intros (Ha & Hs & Ht & Hi & Hn) (Ha' & Hs' & Ht' & Hi' & Hn').
  repeat split; try congruence.
  intros c Hc. destruct (Hn' c Hc) as [H|H]; [auto|]. right. by rewrite <- Ha.
Qed.

Lemma trackStep_refl tr : trackStep tr tr.
Proof. by repeat split. Qed.

Lemma trackStep_trans t1 t2 t3 : trackStep t1 t2 -> trackStep t2 t3 -> trackStep t1 t3.
Proof.
  intros (Hc & Hw & Hb) (Hc' & Hw' & Hb'). repeat split; try congruence.
  by etrans.
Qed.

Lemma Forall2_rel_refl {A} (R : A -> A -> Prop) (l : list A) :
  (forall x, R x x) -> Forall2 R l l.
Proof. intros HR. induction l; constructor; auto. Qed.

Lemma Forall2_rel_trans {A} (R : A -> A -> Prop) (l1 l2 l3 : list A) :
  (forall x y z, R x y -> R y z -> R x z) ->
  Forall2 R l1 l2 -> Forall2 R l2 l3 -> Forall2 R l1 l3.
Proof.
  intros HR H12. revert l3. induction H12; inversion 1; subst; constructor; eauto.
Qed.

Lemma signals_refl w : signals w w.
Proof.
  split; [done|]. split; apply Forall2_rel_refl;
    auto using trackStep_refl, sessionStep_refl.
Qed.

Lemma signals_trans w1 w2 w3 : signals w1 w2 -> signals w2 w3 -> signals w1 w3.
Proof.
  intros (Hv & Ht & Hp) (Hv' & Ht' & Hp'). split; [congruence|].
  split; eapply Forall2_rel_trans; eauto using trackStep_trans, sessionStep_trans.
Qed.

Lemma signals_same w w' :
  videoTrack w' = videoTrack w -> tracks w' = tracks w -> pcs w' = pcs w ->
  signals w w'.
Proof.
  intros Hv Ht Hp. unfold signals. rewrite Hv, Ht, Hp. apply signals_refl.
Qed.

Lemma signals_updPC pc f w :
  (forall p, pcs w !! pc = Some p -> sessionStep p (f p)) ->
  signals w (updPC pc f w).
Proof.
  intros Hf. split; [done|]. split; wsimpl.
  - apply Forall2_rel_refl, trackStep_refl.
  - apply Forall2_alter_r; [apply Forall2_rel_refl, sessionStep_refl|].
    intros x y Hx Hy _. rewrite Hx in Hy. simplify_eq. auto.
Qed.

Lemma preserves_bind {A B} R (m : M A) (f : A -> M B) :
  (forall w1 w2 w3, R w1 w2 -> R w2 w3 -> R w1 w3) ->
  preserves R m -> (forall a, preserves R (f a)) -> preserves R (m ≫= f).
Proof.
  intros Htrans Hm Hf w. unfold mbind, M_bind.
  specialize (Hm w). destruct (m w) as [a w1|e w1|w1]; simpl in Hm; [|done..].
  eapply Htrans; [exact Hm|apply Hf].
Qed.

Lemma preserves_same {A} (m : M A) :
  (forall w, videoTrack (world_of (m w)) = videoTrack w /\
             tracks (world_of (m w)) = tracks w /\
             pcs (world_of (m w)) = pcs w) ->
  preserves signals m.
Proof. intros H w. destruct (H w) as (? & ? & ?). by apply signals_same. Qed.

Ltac same := apply preserves_same; intros ?; by repeat case_match.

Lemma check_signals err : preserves signals (check err).
Proof. unfold check. same. Qed.
Lemma must_signals {A} (r : Error + A) : preserves signals (must r).
Proof. unfold must. same. Qed.
Lemma ret_signals {A} (a : A) : preserves signals (mret a).
Proof. same. Qed.
Lemma panic_signals {A} e : preserves signals (@panic A e).
Proof. same. Qed.
Lemma CreateAnswer_signals E pc : preserves signals (CreateAnswer E pc).
Proof. unfold CreateAnswer. same. Qed.
Lemma LocalDescription_signals pc : preserves signals (LocalDescription pc).
Proof. same. Qed.
Lemma Header_Add_signals res k v : preserves signals (Header_Add res k v).
Proof. same. Qed.
Lemma WriteHeader_signals res c : preserves signals (WriteHeader res c).
Proof. same. Qed.
Lemma Fprint_signals res s : preserves signals (Fprint res s).
Proof. same. Qed.

Lemma OnICE_signals pc h : preserves signals (OnICEConnectionStateChange pc h).
Proof. intros w. apply signals_updPC. intros; repeat split; auto. Qed.

Lemma SetRemoteDescription_signals E pc d :
  preserves signals (SetRemoteDescription E pc d).
Proof.
  intros w. unfold SetRemoteDescription.
  repeat case_match; try apply signals_refl.
  apply signals_updPC. intros p0 Hp0. simplify_eq.
  repeat split; try done. intros c Hc. right. psimpl.
  match goal with H : negotiate _ _ _ = _ |- _ => rewrite <- H in Hc end.
  unfold negotiate in Hc. by apply list_elem_of_filter in Hc as [_ ?].
Qed.

Lemma SetLocalDescription_signals E pc d :
  preserves signals (SetLocalDescription E pc d).
Proof.
  intros w. unfold SetLocalDescription. case_match; [apply signals_refl|].
  apply signals_updPC. intros; repeat split; auto.
Qed.

Lemma recvGatherComplete_signals E ch : preserves signals (recvGatherComplete E ch).
Proof.
  intros w. unfold recvGatherComplete. repeat case_match; try apply signals_refl.
  eapply signals_trans; [|apply signals_same; reflexivity].
  apply signals_updPC. intros; repeat split; auto.
Qed.

Lemma writeAnswer_signals E res pc offer path :
  preserves signals (writeAnswer E res pc offer path).
Proof.
  unfold writeAnswer.
  repeat (apply preserves_bind; [exact signals_trans| |intros ?]);
    auto using check_signals, must_signals, ret_signals, CreateAnswer_signals,
      LocalDescription_signals, Header_Add_signals, WriteHeader_signals,
      OnICE_signals, SetRemoteDescription_signals, SetLocalDescription_signals,
      recvGatherComplete_signals.
  case_match; auto using Fprint_signals, panic_signals.
Qed.

Lemma opens_same w w0 :
  videoTrack w0 = videoTrack w -> tracks w0 = tracks w -> pcs w0 = pcs w ->
  opens w w0.
Proof. intros. split; [done|]. by left. Qed.

Lemma fresh_whipSession : fresh [] whipSession.
Proof. repeat split; try done. intros c Hc. by apply elem_of_nil in Hc. Qed.

Lemma fresh_new api : fresh [] (newPeerConnection api peerConnectionConfiguration).
Proof. repeat split; try done. intros c Hc. by apply elem_of_nil in Hc. Qed.

Lemma fresh_whepSession E t : fresh [t] (whepSession E t).
Proof. repeat split; try done. intros c Hc. by apply elem_of_nil in Hc. Qed.

Lemma whipHandler_shape E res req w :
  exists w0, opens w w0 /\ signals w0 (world_of (whipHandler E res req w)).
Proof.
  destruct (whipHandler_cases E res req w)
    as [[e ->]|[[e ->]|(offer & _ & _ & ->)]].
  - exists w. split; [by apply opens_same|apply signals_refl].
  - eexists. split; [|apply signals_refl]. split; [done|].
    right; left. eexists. split; [apply fresh_new|done].
  - eexists. split; [|apply writeAnswer_signals]. split; [done|].
    right; left. eexists. split; [apply fresh_whipSession|done].
Qed.

Lemma whepHandler_shape E res req w :
  exists w0, opens w w0 /\ signals w0 (world_of (whepHandler E res req w)).
Proof.
  destruct (whepHandler_cases E res req w)
    as [[e ->]|[[e ->]|(offer & t & _ & _ & Ht & ->)]].
  - exists w. split; [by apply opens_same|apply signals_refl].
  - eexists. split; [|apply signals_refl]. split; [done|].
    right; left. eexists. split; [apply fresh_new|done].
  - eexists. split; [|apply writeAnswer_signals]. split; [done|].
    right; right. exists t, (whepSession E t).
    split; [done|]. split; [apply fresh_whepSession|done].
Qed.

Lemma opens_responses w w0 f : opens (set_responses f w) w0 -> opens w w0.
Proof. done. Qed.

Lemma serve_shape E req w :
  exists w0, opens w w0 /\ signals w0 (serve E req w).
Proof.
  unfold serve. destruct (route (mux w) (reqPath req)) as [[dir| | |url]|].
  - eexists. split; [|apply signals_refl]. by apply opens_same.
  - destruct (whepHandler_shape E (length (responses w)) req
                (set_responses (fun l => l ++ [emptyResponse]) w)) as (w0 & ? & ?).
    exists w0. split; [by eapply opens_responses|done].
  - destruct (whipHandler_shape E (length (responses w)) req
                (set_responses (fun l => l ++ [emptyResponse]) w)) as (w0 & ? & ?).
    exists w0. split; [by eapply opens_responses|done].
  - eexists. split; [|apply signals_refl]. by apply opens_same.
  - eexists. split; [|apply signals_refl]. by apply opens_same.
Qed.

Lemma Close_signals pc : preserves signals (PeerConnection_Close pc).
Proof.
  intros w. unfold PeerConnection_Close. wsimpl. split; [done|]. split; wsimpl.
  - apply Forall2_fmap_r, Forall2_rel_refl. intros tr. repeat split; try done.
    psimpl. apply sublist_filter.
  - apply Forall2_alter_r; [apply Forall2_rel_refl, sessionStep_refl|].
    intros x y Hx Hy _. rewrite Hx in Hy. simplify_eq. repeat split; auto.
Qed.

Lemma onICE_signals pc s : preserves signals (onICEConnectionStateChange pc s).
Proof.
  unfold onICEConnectionStateChange.
  apply preserves_bind; [exact signals_trans|unfold Printf; same|intros _].
  case_decide; [|apply ret_signals].
  apply preserves_bind; [exact signals_trans|apply Close_signals|intros _].
  apply ret_signals.
Qed.

Lemma callback_same m w :
  videoTrack (callback m w) = videoTrack (world_of (m w)) /\
  tracks (callback m w) = tracks (world_of (m w)) /\
  pcs (callback m w) = pcs (world_of (m w)).
Proof. unfold callback. by destruct (m w). Qed.

Lemma resume_same g m w :
  videoTrack (resume g m w) = videoTrack (world_of (m w)) /\
  tracks (resume g m w) = tracks (world_of (m w)) /\
  pcs (resume g m w) = pcs (world_of (m w)).
Proof. unfold resume. by destruct (m w). Qed.

Lemma signals_eq w w1 w2 :
  videoTrack w2 = videoTrack w1 /\ tracks w2 = tracks w1 /\ pcs w2 = pcs w1 ->
  signals w w1 -> signals w w2.
Proof. intros (Hv & Ht & Hp). unfold signals. by rewrite Hv, Ht, Hp. Qed.

Lemma senderRTCPLoop_world pc r w : world_of (senderRTCPLoop pc [r] w) = w.
Proof.
  unfold senderRTCPLoop, forLoop, senderRTCPBody, RTPSender_Read, readRTCP,
    mbind, M_bind, mret, M_ret, park.
  destruct (isClosed w pc); [done|]. by destruct r.
Qed.

Lemma receiverRTCPLoop_world pc r w : world_of (receiverRTCPLoop pc [r] w) = w.
Proof.
  unfold receiverRTCPLoop, forLoop, receiverRTCPBody, RTPReceiver_ReadRTCP,
    readRTCP, mbind, M_bind, mret, M_ret, park, check, panic.
  destruct (isClosed w pc); [done|]. by destruct r.
Qed.

Lemma fanout_frame E cs pkt w :
  videoTrack (fst (fanout E cs pkt w)) = videoTrack w /\
  tracks (fst (fanout E cs pkt w)) = tracks w.
Proof.
  revert w. induction cs as [|c cs IH]; intros w; [done|]. simpl.
  destruct (deliverErr E c pkt); simpl; [apply IH|].
  destruct (IH (updPC c (with_inbox (fun l => l ++ [pkt])) w)) as [-> ->]. done.
Qed.

Lemma fanout_pcs E cs pkt w w' :
  pcs w' = pcs w ->
  pcs (fst (fanout E cs pkt w')) = pcs (fst (fanout E cs pkt w)).
Proof.
  revert w w'. induction cs as [|c cs IH]; intros w w' Hp; [done|]. simpl.
  destruct (deliverErr E c pkt); simpl; [by apply IH|].
  apply IH. wsimpl. by rewrite Hp.
Qed.

Lemma trackReadLoop_shape E pc r w :
  world_of (trackReadLoop E pc [r] w) = w \/
  forwards E w (world_of (trackReadLoop E pc [r] w)).
Proof.
  unfold trackReadLoop, forLoop, trackReadBody, TrackRemote_ReadRTP,
    mbind, M_bind, must, panic, get, check, mret, M_ret, park.
  destruct (isClosed w pc); [by left|].
  destruct r as [e|pkt]; [by left|].
  unfold WriteRTP.
  destruct (videoTrack w) as [t|] eqn:Hv; simpl; [|by left].
  destruct (tracks w !! t) as [tr|] eqn:Ht; simpl; [|by left].
  case_decide; [by left|].
  destruct (fanout E (bindings tr) pkt
              (updTrack t (with_written (fun l => l ++ [pkt])) w))
    as [w' err] eqn:Hf.
  right. exists t, tr, pkt.
  assert (w' = fst (fanout E (bindings tr) pkt
                      (updTrack t (with_written (fun l => l ++ [pkt])) w)))
    as Hw' by (by rewrite Hf).
  assert (videoTrack w' = Some t /\
          tracks w' = alter (with_written (fun l => l ++ [pkt])) t (tracks w) /\
          pcs w' = pcs (fst (fanout E (bindings tr) pkt w))) as (? & ? & ?).
  { rewrite Hw'.
    destruct (fanout_frame E (bindings tr) pkt
                (updTrack t (with_written (fun l => l ++ [pkt])) w)) as [-> ->].
    repeat split; [done|]. by apply fanout_pcs. }
  destruct err; by wsimpl.
Qed.

(** Every step of the process creates at most one session and then only
    signals, or forwards one packet. *)
Lemma step_shape E w ev :
  (exists w0, opens w w0 /\ signals w0 (step E w ev)) \/
  forwards E w (step E w ev).
Proof.
  assert (forall w', videoTrack w' = videoTrack w /\ tracks w' = tracks w /\
                     pcs w' = pcs w ->
          exists w0, opens w w0 /\ signals w0 w') as Hsame.
  { intros w' (? & ? & ?). exists w. split; [by apply opens_same|].
    by apply signals_same. }
  unfold step. destruct (crashed w); [left; by apply Hsame|].
  destruct ev as [req|pc s|pc|pc r|pc r|pc r].
  - left. destruct (serving w); [apply serve_shape|by apply Hsame].
  - left. exists w. split; [by apply opens_same|].
    assert (signals w (updPC pc (with_ICE s) w)) as H1.
    { apply signals_updPC. intros; repeat split; auto. }
    destruct (pcs w !! pc ≫= pcOnICE) as [[pc']|]; [|done].
    eapply signals_trans; [exact H1|].
    eapply signals_eq; [apply callback_same|apply onICE_signals].
  - left. apply Hsame.
    destruct (pcs w !! pc ≫= pcOnTrack) as [[]|]; [|done].
    by destruct (hasGoroutine (TrackReadLoop pc) w).
  - destruct (hasGoroutine (TrackReadLoop pc) w); [|left; by apply Hsame].
    destruct (resume_same (TrackReadLoop pc) (trackReadLoop E pc [r]) w)
      as (Hv & Ht & Hp).
    destruct (trackReadLoop_shape E pc r w) as [Hw|(t & tr & pkt & H)].
    + left. apply Hsame. by rewrite Hv, Ht, Hp, Hw.
    + right. exists t, tr, pkt. by rewrite Hv, Ht, Hp.
  - left. apply Hsame.
    destruct (hasGoroutine (ReceiverRTCPLoop pc) w); [|done].
    destruct (resume_same (ReceiverRTCPLoop pc) (receiverRTCPLoop pc [r]) w)
      as (-> & -> & ->). by rewrite receiverRTCPLoop_world.
  - left. apply Hsame.
    destruct (hasGoroutine (SenderRTCPLoop pc) w); [|done].
    destruct (resume_same (SenderRTCPLoop pc) (senderRTCPLoop pc [r]) w)
      as (-> & -> & ->). by rewrite senderRTCPLoop_world.
Qed.

(** ** The invariant *)

Lemma goodSession_step vt p p' : sessionStep p p' -> goodSession vt p -> goodSession vt p'.
Proof.
  intros (Ha & Hs & Ht & _ & Hn) (G1 & G2 & G3). repeat split.
  - by rewrite Hs.
  - rewrite Ht, Ha. exact G2.
  - intros c Hc. rewrite Ha. destruct (Hn c Hc); auto.
Qed.

Lemma goodSession_media vt p p' : mediaStep p p' -> goodSession vt p -> goodSession vt p'.
Proof.
  intros (Ha & Hs & Ht & Hn) (G1 & G2 & G3). repeat split.
  - by rewrite Hs.
  - rewrite Ht, Ha. exact G2.
  - rewrite Hn, Ha. exact G3.
Qed.

Lemma goodSession_fresh senders vt p :
  fresh senders p -> (forall t, t ∈ senders -> t = vt) -> goodSession vt p.
Proof. intros (Hs & _ & G2 & G3) Hv. repeat split; [by rewrite Hs|done..]. Qed.

Lemma Inv_signals w w' : Inv w -> signals w w' -> Inv w'.
Proof.
  intros (Hv & (tr & Ht & Hm & Hnd & Hb) & Hg) (Hv' & Ht' & Hp').
  split; [congruence|]. split.
  - rewrite Ht in Ht'. inversion Ht' as [|? tr' ? ? (Hc & _ & Hsub) Hnil]; subst.
    inversion Hnil; subst. exists tr'. split; [done|]. split; [congruence|].
    split; [by eapply sublist_NoDup|].
    intros c Hc'. rewrite <- (Forall2_length _ _ _ Hp').
    apply Hb. by eapply elem_of_sublist.
  - eapply Forall2_Forall_r; [exact Hp'|].
    eapply Forall_impl; [exact Hg|]. intros p Hgp p' Hs.
    by eapply goodSession_step.
Qed.

Lemma Inv_opens w w0 : Inv w -> opens w w0 -> Inv w0.
Proof.
  intros (Hv & (tr & Ht & Hm & Hnd & Hb) & Hg)
    (Hv0 & [[Hp0 Ht0]|[(p & Hf & Hp0 & Ht0)|(t & p & Hvt & Hf & Hp0 & Ht0)]]).
  - split; [congruence|]. rewrite Hp0, Ht0. split; [|done]. by exists tr.
  - split; [congruence|]. rewrite Hp0, Ht0. split.
    + exists tr. repeat split; try done.
      intros c Hc. rewrite length_app. specialize (Hb c Hc). simpl. lia.
    + apply Forall_app. split; [done|]. constructor; [|done].
      eapply goodSession_fresh; [exact Hf|]. intros t Ht'. by apply elem_of_nil in Ht'.
  - rewrite Hv in Hvt. simplify_eq. split; [congruence|]. rewrite Hp0, Ht0, Ht. split.
    + eexists. split; [reflexivity|]. psimpl. split; [done|]. split.
      * apply NoDup_app. split; [done|]. split; [|apply NoDup_singleton].
        intros c Hc Hc'. apply list_elem_of_singleton in Hc'. subst.
        specialize (Hb _ Hc). lia.
      * intros c [Hc| ->%list_elem_of_singleton]%elem_of_app; rewrite length_app; simpl;
          [specialize (Hb c Hc)|]; lia.
    + apply Forall_app. split; [done|]. constructor; [|done].
      eapply goodSession_fresh; [exact Hf|].
      by intros t ->%list_elem_of_singleton.
Qed.

Lemma fanout_sessions E cs pkt w :
  Forall2 mediaStep (pcs w) (pcs (fst (fanout E cs pkt w))).
Proof.
  assert (forall p, mediaStep p p) as Hrefl by (by intros; repeat split).
  assert (forall p1 p2 p3, mediaStep p1 p2 -> mediaStep p2 p3 -> mediaStep p1 p3)
    as Htrans.
  { intros p1 p2 p3 (? & ? & ? & ?) (? & ? & ? & ?). repeat split; congruence. }
  revert w. induction cs as [|c cs IH]; intros w; simpl.
  - by apply Forall2_rel_refl.
  - destruct (deliverErr E c pkt); simpl; [apply IH|].
    eapply Forall2_rel_trans; [exact Htrans| |apply IH]. wsimpl.
    apply Forall2_alter_r; [by apply Forall2_rel_refl|].
    intros x y Hx Hy _. rewrite Hx in Hy. simplify_eq. by repeat split.
Qed.

Lemma Inv_forwards E w w' : Inv w -> forwards E w w' -> Inv w'.
Proof.
  intros (Hv & (tr & Ht & Hm & Hnd & Hb) & Hg)
    (t & tr0 & pkt & Hvt & Htr & Hv' & Ht' & Hp').
  rewrite Hv in Hvt. simplify_eq. rewrite Ht in Htr.
  injection Htr as <-.
  pose proof (fanout_sessions E (bindings tr) pkt w) as Hs.
  split; [done|]. split.
  - rewrite Ht', Ht. eexists. split; [reflexivity|]. psimpl.
    repeat split; try done.
    intros c Hc. rewrite Hp', <- (Forall2_length _ _ _ Hs). by apply Hb.
  - rewrite Hp'. eapply Forall2_Forall_r; [exact Hs|].
    eapply Forall_impl; [exact Hg|]. intros p Hgp p' Hm'.
    by eapply goodSession_media.
Qed.

Lemma step_Inv E w ev : Inv w -> Inv (step E w ev).
Proof.
  intros HI. destruct (step_shape E w ev) as [(w0 & Ho & Hs)|Hf].
  - eapply Inv_signals; [|exact Hs]. by eapply Inv_opens.
  - by eapply Inv_forwards.
Qed.

Lemma run_Inv E w evs : Inv w -> Inv (run E w evs).
Proof.
  unfold run. revert w. induction evs as [|ev evs IH]; intros w HI; [done|].
  cbn [foldl]. apply IH. by apply step_Inv.
Qed.

Lemma run_crashed E w evs e : crashed w = Some e -> run E w evs = w.
Proof.
  intros Hc. unfold run. induction evs as [|ev evs IH]; [done|].
  cbn [foldl]. replace (step E w ev) with w; [done|].
  unfold step. by rewrite Hc.
Qed.

Lemma boot_Inv E : failure E CallNewTrack 0 = None -> Inv (boot E).
Proof.
  intros Hnew.
  unfold boot, callback, main, NewTrackLocalStaticRTP, Handle, Println,
    ListenAndServe, mbind, M_bind, modify, check, panic, mret, M_ret.
  cbn [tracks initial length]. rewrite Hnew.
  assert (forall w, videoTrack w = Some 0%nat ->
            tracks w = [mkTrack (mkCapability MimeTypeH264 0 0 EmptyString []) "video" "pion" [] []] ->
            pcs w = [] -> Inv w) as HI.
  { intros w Hv Ht Hp. split; [done|]. rewrite Ht, Hp. split; [|by constructor].
    eexists. split; [reflexivity|]. split; [done|]. split; [apply NoDup_nil_2|].
    intros c Hc. by apply elem_of_nil in Hc. }
  destruct (failure E CallListenAndServe 0); by apply HI.
Qed.

Lemma boot_cases E : Inv (boot E) \/ exists e, crashed (boot E) = Some e.
Proof.
  destruct (failure E CallNewTrack 0) as [e|] eqn:Hnew; [|left; by apply boot_Inv].
  right. exists e.
  unfold boot, callback, main, NewTrackLocalStaticRTP, mbind, M_bind, modify,
    check, panic.
  cbn [tracks initial length]. by rewrite Hnew.
Qed.

(** ** No replay *)

Lemma inbox_pcs w w' s : pcs w' = pcs w -> inbox w' s = inbox w s.
Proof. unfold inbox. by intros ->. Qed.

Lemma inbox_signals w w' s : signals w w' -> inbox w' s = inbox w s.
Proof.
  intros (_ & _ & Hp). unfold inbox.
  rewrite Forall2_lookup in Hp. specialize (Hp s).
  destruct Hp as [p p' (_ & _ & _ & Hi & _)|]; simpl; [done|done].
Qed.

Lemma writes_signals w w' : signals w w' -> writes w' = writes w.
Proof.
  intros (Hv & Ht & _). unfold writes. rewrite Hv.
  destruct (videoTrack w) as [t|]; [|done]. simpl.
  rewrite Forall2_lookup in Ht. specialize (Ht t).
  destruct Ht as [tr tr' (_ & Hw & _)|]; simpl; [done|done].
Qed.

Lemma inbox_snoc w w0 p s :
  pcs w0 = pcs w ++ [p] -> pcInbox p = [] -> inbox w0 s = inbox w s.
Proof.
  intros Hp Hi. unfold inbox. rewrite Hp.
  destruct (decide (s < length (pcs w))%nat) as [Hlt|Hge].
  - by rewrite lookup_app_l.
  - rewrite (lookup_ge_None_2 (pcs w)) by lia.
    destruct (decide (s = length (pcs w))) as [->|Hne].
    + by rewrite lookup_snoc; simpl.
    + rewrite lookup_ge_None_2; [done|]. rewrite length_app. simpl. lia.
Qed.

Lemma quiet_opens w w0 :
  opens w w0 -> (forall s, inbox w0 s = inbox w s) /\ writes w0 = writes w.
Proof.
  intros (Hv & [[Hp Ht]|[(p & Hf & Hp & Ht)|(t & p & Hvt & Hf & Hp & Ht)]]).
  - split; [intros; by apply inbox_pcs|]. unfold writes. by rewrite Hv, Ht.
  - split; [intros; eapply inbox_snoc; [done|apply Hf]|].
    unfold writes. by rewrite Hv, Ht.
  - split; [intros; eapply inbox_snoc; [done|apply Hf]|].
    unfold writes. rewrite Hv, Ht, Hvt. simpl.
    rewrite list_lookup_alter_eq. by destruct (tracks w !! t).
Qed.

Lemma fanout_inbox_other E cs pkt w s :
  s ∉ cs -> inbox (fst (fanout E cs pkt w)) s = inbox w s.
Proof.
  revert w. induction cs as [|c cs IH]; intros w Hs; [done|].
  apply not_elem_of_cons in Hs as [Hne Hs]. simpl.
  destruct (deliverErr E c pkt); simpl; [by apply IH|].
  rewrite IH by done. unfold inbox. wsimpl. by rewrite list_lookup_alter_ne.
Qed.

Lemma fanout_inbox E cs pkt w s :
  NoDup cs ->
  inbox (fst (fanout E cs pkt w)) s = inbox w s \/
  inbox (fst (fanout E cs pkt w)) s = inbox w s ++ [pkt].
Proof.
  revert w. induction cs as [|c cs IH]; intros w Hnd; [by left|].
  apply NoDup_cons in Hnd as [Hc Hnd]. simpl.
  destruct (deliverErr E c pkt); simpl; [by apply IH|].
  destruct (decide (s = c)) as [->|Hne].
  - rewrite fanout_inbox_other by done. unfold inbox. wsimpl.
    rewrite list_lookup_alter_eq. destruct (pcs w !! c); simpl; [by right|by left].
  - destruct (IH (updPC c (with_inbox (fun l => l ++ [pkt])) w) Hnd) as [->| ->];
      [left|right]; unfold inbox; wsimpl; by rewrite list_lookup_alter_ne.
Qed.

Lemma wrote_forwards E w w' :
  Inv w -> forwards E w w' ->
  exists pkt, writes w' = writes w ++ [pkt] /\
    forall s, inbox w' s = inbox w s \/ inbox w' s = inbox w s ++ [pkt].
Proof.
  intros (Hv & (tr & Ht & Hm & Hnd & Hb) & Hg)
    (t & tr0 & pkt & Hvt & Htr & Hv' & Ht' & Hp').
  rewrite Hv in Hvt. simplify_eq. rewrite Ht in Htr.
  injection Htr as <-.
  exists pkt. split.
  - unfold writes. rewrite Hv', Hv, Ht', Ht. reflexivity.
  - intros s. rewrite (inbox_pcs _ _ s Hp'). by apply fanout_inbox.
Qed.

(** Along any run, what a session receives is appended to what it had,
    and is drawn, in order, from the packets written meanwhile. *)
Lemma run_inbox E w evs s :
  Inv w ->
  exists l l', inbox (run E w evs) s = inbox w s ++ l /\
    writes (run E w evs) = writes w ++ l' /\ l `sublist_of` l'.
Proof.
  unfold run. revert w. induction evs as [|ev evs IH]; intros w HI.
  - exists [], []. by rewrite !app_nil_r.
  - cbn [foldl]. destruct (IH _ (step_Inv E w ev HI)) as (l & l' & Hi & Hw & Hs).
    rewrite Hi, Hw.
    destruct (step_shape E w ev) as [(w0 & Ho & Hsig)|Hf].
    + destruct (quiet_opens _ _ Ho) as [Hi0 Hw0].
      rewrite (inbox_signals _ _ s Hsig), (writes_signals _ _ Hsig), Hi0, Hw0.
      by exists l, l'.
    + destruct (wrote_forwards E _ _ HI Hf) as (pkt & -> & Hin).
      exists (drop (length (inbox w s)) (inbox (step E w ev) s) ++ l), (pkt :: l').
      destruct (Hin s) as [->| ->].
      * rewrite drop_all. split; [done|]. split; [by rewrite <- app_assoc|].
        by apply sublist_cons.
      * rewrite drop_app_length. split; [by rewrite <- !app_assoc|].
        split; [by rewrite <- app_assoc|]. by apply sublist_skip.
Qed.

(** C2: take the process at any point of any run ([evs0]) and let it run
    on ([evs]).  What a session has received grows by a list [l] that is
    drawn, in order, from the packets written to the Relay Track after that
    point; for a session that did not exist yet at that point (one that
    registers later), [l] is all it ever receives.  So no packet written
    before a subscriber registered is delivered to it. *)
Theorem no_replay E evs0 evs s :
  exists l,
    inbox (run E (run E (boot E) evs0) evs) s =
      inbox (run E (boot E) evs0) s ++ l /\
    l `sublist_of`
      drop (length (writes (run E (boot E) evs0)))
           (writes (run E (run E (boot E) evs0) evs)) /\
    ((length (pcs (run E (boot E) evs0)) <= s)%nat ->
     inbox (run E (run E (boot E) evs0) evs) s = l).
Proof.
  assert (forall w l, (length (pcs w) <= s)%nat -> inbox w s ++ l = l) as Hnew.
  { intros w l Hs. unfold inbox. by rewrite lookup_ge_None_2. }
  destruct (boot_cases E) as [HI|[e He]].
  - destruct (run_inbox E (run E (boot E) evs0) evs s (run_Inv E _ evs0 HI))
      as (l & l' & Hi & Hw & Hs).
    exists l. rewrite Hi, Hw, drop_app_length. split; [done|]. split; [done|].
    apply Hnew.
  - rewrite !(run_crashed E (boot E) evs0 e He), (run_crashed E (boot E) evs e He).
    exists []. rewrite app_nil_r. split; [done|]. split; [apply sublist_nil_l|].
    intros Hs. specialize (Hnew (boot E) [] Hs). by rewrite app_nil_r in Hnew.
Qed.

(** The scenario of the spec: A registers before P1, B after P2. *)
Lemma relay_scenario :
  inbox (run happy (boot happy)
           [postWhip "v=0 offer"; RemoteTrack 0; postWhep "v=0 A";
            RTPArrives 0 (inr (P 1)); RTPArrives 0 (inr (P 2));
            postWhep "v=0 B";
            RTPArrives 0 (inr (P 3)); RTPArrives 0 (inr (P 4));
            RTPArrives 0 (inr (P 5))]) 1 = [P 1; P 2; P 3; P 4; P 5] /\
  inbox (run happy (boot happy)
           [postWhip "v=0 offer"; RemoteTrack 0; postWhep "v=0 A";
            RTPArrives 0 (inr (P 1)); RTPArrives 0 (inr (P 2));
            postWhep "v=0 B";
            RTPArrives 0 (inr (P 3)); RTPArrives 0 (inr (P 4));
            RTPArrives 0 (inr (P 5))]) 2 = [P 3; P 4; P 5].
Proof. split; vm_compute; reflexivity. Qed.

(** ** One Relay Track *)


(** * Further properties of the handlers, the loops and [main] *)

Lemma SetRemoteDescription_total E pc d w :
  (exists e, SetRemoteDescription E pc d w = Done (Some e) w) \/
  (exists p, pcs w !! pc = Some p /\
     SetRemoteDescription E pc d w =
     Done None (updPC pc (with_remote d (negotiate E (pcAPI p) (SDP d))) w)).
Proof.
  unfold SetRemoteDescription.
  case_decide; [by eauto|].
  destruct (wellFormed E (SDP d)); simpl; [|by eauto].
  destruct (pcs w !! pc) as [p|]; [|by eauto].
  destruct (negotiate E (pcAPI p) (SDP d)) eqn:Hn; [by eauto|].
  right. exists p. by rewrite Hn.
Qed.

Lemma writeAnswer_cases E res pc offer path w :
  (exists e, writeAnswer E res pc offer path w = Panicked e (offered1 pc w)) \/
  (exists e p, pcs w !! pc = Some p /\
     writeAnswer E res pc offer path w = Panicked e (offered2 E pc p offer w)) \/
  (exists p answer, pcs w !! pc = Some p /\ gather E pc = None /\
     writeAnswer E res pc offer path w = Parked (offered3 E pc p offer answer w)) \/
  (exists p answer cs, pcs w !! pc = Some p /\
     negotiable E pc p offer answer cs /\
     writeAnswer E res pc offer path w =
     Done tt (afterAnswer E res pc p offer path answer cs w)).
Proof.
  destruct (SetRemoteDescription_total E pc (mkSD SDPTypeOffer offer) (offered1 pc w))
    as [[e He]|(p1 & Hp1 & Hs)].
  { left. exists e. unfold writeAnswer. mstep. fold (offered1 pc w).
    erewrite bind_step by exact He. reflexivity. }
  unfold offered1 in Hp1. wsimpl. rewrite list_lookup_alter_eq in Hp1.
  destruct (pcs w !! pc) as [p|] eqn:Hp; [|discriminate]. psimpl.
  injection Hp1 as <-. psimpl.
  assert (offer <> EmptyString /\ wellFormed E offer = true /\
          negotiate E (pcAPI p) offer <> []) as (Hne & Hwf & Hneg).
  { apply SetRemoteDescription_None in Hs as (? & ? & p' & Hp' & ? & _).
    unfold offered1 in Hp'. wsimpl.
    rewrite list_lookup_alter_eq, Hp in Hp'. psimpl. by simplify_eq. }
  right.
  destruct (answerFor E offer) as [e|answer] eqn:Hans.
  { left. exists e, p. split; [done|]. unfold writeAnswer. mstep.
    fold (offered1 pc w). erewrite bind_step by exact Hs. mstep. mstep.
    erewrite bind_step; cycle 1.
    { unfold CreateAnswer. wsimpl. rewrite !list_lookup_alter_eq.
      unfold offered1; wsimpl. rewrite list_lookup_alter_eq, Hp. psimpl.
      rewrite Hans. reflexivity. }
    reflexivity. }
  destruct (failure E CallSetLocalDescription pc) as [e|] eqn:Hfail.
  { left. exists e, p. split; [done|]. unfold writeAnswer. mstep.
    fold (offered1 pc w). erewrite bind_step by exact Hs. mstep. mstep.
    erewrite bind_step; cycle 1.
    { unfold CreateAnswer. wsimpl. rewrite !list_lookup_alter_eq.
      unfold offered1; wsimpl. rewrite list_lookup_alter_eq, Hp. psimpl.
      rewrite Hans. reflexivity. }
    mstep. erewrite bind_step; cycle 1.
    { unfold SetLocalDescription. rewrite Hfail. reflexivity. }
    reflexivity. }
  right.
  destruct (gather E pc) as [cs|] eqn:Hg.
  { right. exists p, answer, cs. split; [done|].
    assert (negotiable E pc p offer answer cs) as Hn by done.
    split; [done|]. by apply writeAnswer_accepts. }
  left. exists p, answer. split; [done|]. split; [done|].
  unfold writeAnswer. mstep.
  fold (offered1 pc w). erewrite bind_step by exact Hs. mstep. mstep.
  erewrite bind_step; cycle 1.
  { unfold CreateAnswer. wsimpl. rewrite !list_lookup_alter_eq.
    unfold offered1; wsimpl. rewrite list_lookup_alter_eq, Hp. psimpl.
    rewrite Hans. reflexivity. }
  mstep. erewrite bind_step; cycle 1.
  { unfold SetLocalDescription. rewrite Hfail. reflexivity. }
  mstep.
  unfold mbind at 1, M_bind at 1.
  replace (recvGatherComplete E pc _) with
    (@Parked unit (offered3 E pc p offer answer w)); [done|].
  unfold recvGatherComplete, offered3, offered2, offered1. wsimpl.
  rewrite !list_lookup_alter_eq, Hp. psimpl. by rewrite Hg.
Qed.

(** ** [main] *)

Lemma main_registered E :
  failure E CallNewTrack 0 = None ->
  videoTrack (boot E) = Some 0%nat /\ tracks (boot E) = [relayTrack] /\
  mux (boot E) = routes /\ pcs (boot E) = [] /\ goroutines (boot E) = [] /\
  serving (boot E) = bool_decide (failure E CallListenAndServe 0 = None) /\
  crashed (boot E) = failure E CallListenAndServe 0.
Proof.
  intros Hnew.
  unfold boot, callback, main, NewTrackLocalStaticRTP, Handle, Println,
    ListenAndServe, mbind, M_bind, modify, check, panic, mret, M_ret.
  cbn [tracks initial length]. rewrite Hnew.
  by destruct (failure E CallListenAndServe 0).
Qed.

(** X2: [main] never returns.  The process serves exactly when both the
    creation of the track and [ListenAndServe] succeed; otherwise [main]
    has panicked with the error, no response has been written, and no
    event changes the process any more. *)
Theorem main_never_returns E :
  (forall w', main E initial <> Done tt w') /\
  (serving (boot E) = true <->
   failure E CallNewTrack 0 = None /\ failure E CallListenAndServe 0 = None) /\
  (serving (boot E) = false ->
   exists e, crashed (boot E) = Some e /\ responses (boot E) = [] /\
     forall evs, run E (boot E) evs = boot E).
Proof.
  unfold boot, callback, main, NewTrackLocalStaticRTP, Handle, Println,
    ListenAndServe, mbind, M_bind, modify, check, panic, mret, M_ret.
  cbn [tracks initial length].
  destruct (failure E CallNewTrack 0) as [e|];
    [|destruct (failure E CallListenAndServe 0) as [e|]].
  - split; [done|]. split; [split; [done|by intros [? _]]|].
    intros _. exists e. split; [done|]. split; [done|].
    intros evs. by apply run_crashed with (e := e).
  - split; [done|]. split; [split; [done|by intros [_ ?]]|].
    intros _. exists e. split; [done|]. split; [done|].
    intros evs. by apply run_crashed with (e := e).
  - split; [done|]. split; [done|]. done.
Qed.

(** The port is taken: the process is down before the first request. *)
Lemma main_never_returns_witness :
  crashed (boot (failing CallListenAndServe (IOFailure "address already in use")))
    = Some (IOFailure "address already in use") /\
  run (failing CallListenAndServe (IOFailure "address already in use"))
      (boot (failing CallListenAndServe (IOFailure "address already in use")))
      [postWhip "v=0 offer"]
    = boot (failing CallListenAndServe (IOFailure "address already in use")).
Proof.
  destruct (main_never_returns
              (failing CallListenAndServe (IOFailure "address already in use")))
    as (_ & _ & H).
  destruct H as (e & He & _ & Hrun); [by_compute|].
  split; [by_compute|apply Hrun].
Defined.

(** ** All or nothing *)

Lemma writeAnswer_quiet E res pc offer path w :
  (exists w', writeAnswer E res pc offer path w = Done tt w') \/
  responses (world_of (writeAnswer E res pc offer path w)) = responses w /\
  log (world_of (writeAnswer E res pc offer path w)) = log w.
Proof.
  destruct (writeAnswer_cases E res pc offer path w)
    as [[e ->]|[(e & p & _ & ->)|[(p & a & _ & _ & ->)|(p & a & cs & _ & _ & ->)]]];
    [by right..|left; by eexists].
Qed.

(** X3: a handler that does not return has written nothing: whenever
    [whipHandler] or [whepHandler] ends in a panic or stays blocked, the
    response writers (header, status, body) and the standard output are
    as they were before the request. *)
Theorem response_all_or_nothing E res req w o :
  o = whipHandler E res req w \/ o = whepHandler E res req w ->
  (forall w', o <> Done tt w') ->
  responses (world_of o) = responses w /\ log (world_of o) = log w.
Proof.
  intros [->| ->] Hnot.
  - destruct (whipHandler_cases E res req w)
      as [[e He]|[[e He]|(offer & _ & _ & He)]]; rewrite He in *; [done..|].
    destruct (writeAnswer_quiet E res (length (pcs w)) offer "/whip"
                (set_pcs (fun l => l ++ [whipSession]) w)) as [[w' Hw]|H]; [|done].
    by destruct (Hnot w').
  - destruct (whepHandler_cases E res req w)
      as [[e He]|[[e He]|(offer & t & _ & _ & _ & He)]]; rewrite He in *; [done..|].
    match type of He with _ = writeAnswer _ _ _ _ _ ?w0 =>
      destruct (writeAnswer_quiet E res (length (pcs w)) offer "/whep" w0)
        as [[w' Hw]|H]; [|done] end.
    by destruct (Hnot w').
Qed.

(** The empty offer on [happy]. *)
Lemma response_all_or_nothing_witness :
  responses (world_of (whipHandler happy 0 emptyWhip accepted0)) = [emptyResponse] /\
  log (world_of (whipHandler happy 0 emptyWhip accepted0)) = log accepted0.
Proof.
  apply (response_all_or_nothing happy 0 emptyWhip accepted0
           (whipHandler happy 0 emptyWhip accepted0)); [by left|].
  intros w'. by_compute.
Defined.

(** ** What a request touches *)

Lemma writeAnswer_footprint E res pc offer path w :
  exists f,
    pcs (world_of (writeAnswer E res pc offer path w)) = alter f pc (pcs w) /\
    (forall p, pcClosed (f p) = pcClosed p) /\
    tracks (world_of (writeAnswer E res pc offer path w)) = tracks w /\
    goroutines (world_of (writeAnswer E res pc offer path w)) = goroutines w /\
    videoTrack (world_of (writeAnswer E res pc offer path w)) = videoTrack w.
Proof.
  destruct (writeAnswer_cases E res pc offer path w)
    as [[e ->]|[(e & p & _ & ->)|[(p & a & _ & _ & ->)|(p & a & cs & _ & _ & ->)]]];
    unfold offered3, offered2, offered1, afterAnswer; wsimpl;
    rewrite ?list_alter_alter_eq; eexists; (split; [reflexivity|done]).
Qed.

Lemma footprint_same w w' :
  pcs w' = pcs w -> tracks w' = tracks w -> goroutines w' = goroutines w ->
  videoTrack w' = videoTrack w -> footprint w w'.
Proof.
  intros Hp Ht Hg Hv. unfold footprint. rewrite Hp, Ht, Hg, Hv.
  split; [done|].
  split; [intros p Hl; by rewrite lookup_ge_None_2 in Hl|].
  split; [lia|]. split; [done|].
  split; [|split; [done|by left]].
  intros t tr Htr. exists tr. split; [done|]. split; [done|]. split; [done|by left].
Qed.

Lemma footprint_session w w' (p0 : PeerConnection) f :
  pcs w' = alter f (length (pcs w)) (pcs w ++ [p0]) ->
  pcClosed (f p0) = false ->
  videoTrack w' = videoTrack w ->
  (tracks w' = tracks w /\ goroutines w' = goroutines w \/
   exists t, tracks w' = alter (with_bindings (fun l => l ++ [length (pcs w)])) t (tracks w) /\
     goroutines w' = goroutines w ++ [SenderRTCPLoop (length (pcs w))]) ->
  footprint w w'.
Proof.
  intros Hp Hc Hv Htg. unfold footprint. rewrite Hp, Hv, alter_snoc.
  split; [intros pc p Hl; by apply lookup_app_l_Some|].
  split; [intros p; rewrite lookup_snoc; by intros [= <-]|].
  split; [rewrite length_app; simpl; lia|]. split; [done|].
  destruct Htg as [[-> ->]|(t & -> & ->)].
  - split; [|split; [done|by left]].
    intros t tr Htr. exists tr. split; [done|]. split; [done|]. split; [done|by left].
  - split; [|split; [by rewrite length_alter|by right]].
    intros t' tr Ht'. rewrite list_lookup_alter.
    case_decide; subst; rewrite Ht'; simpl; eexists; (split; [reflexivity|]);
      (split; [done|]); (split; [done|]); [by right|by left].
Qed.

Lemma whipHandler_footprint E res req w :
  footprint w (world_of (whipHandler E res req w)).
Proof.
  destruct (whipHandler_cases E res req w)
    as [[e ->]|[[e ->]|(offer & _ & _ & ->)]].
  - by apply footprint_same.
  - apply footprint_session
      with (p0 := newPeerConnection whipAPI peerConnectionConfiguration) (f := id);
      [wsimpl; by rewrite list_alter_id|done|done|by left].
  - destruct (writeAnswer_footprint E res (length (pcs w)) offer "/whip"
                (set_pcs (fun l => l ++ [whipSession]) w))
      as (f & Hp & Hc & Ht & Hg & Hv).
    apply footprint_session with (p0 := whipSession) (f := f);
      [done|by rewrite Hc|done|by left].
Qed.

Lemma whepHandler_footprint E res req w :
  footprint w (world_of (whepHandler E res req w)).
Proof.
  destruct (whepHandler_cases E res req w)
    as [[e ->]|[[e ->]|(offer & t & _ & _ & Hvt & ->)]].
  - by apply footprint_same.
  - apply footprint_session
      with (p0 := newPeerConnection (whepAPI E) peerConnectionConfiguration) (f := id);
      [wsimpl; by rewrite list_alter_id|done|done|by left].
  - match goal with |- context [writeAnswer _ _ _ _ _ ?w0] =>
      destruct (writeAnswer_footprint E res (length (pcs w)) offer "/whep" w0)
        as (f & Hp & Hc & Ht & Hg & Hv) end.
    apply footprint_session with (p0 := whepSession E t) (f := f);
      [done|by rewrite Hc|done|].
    right. exists t. by rewrite Ht, Hg.
Qed.

(** X4: what one request can do to the process, however its handler ends:
    every session that existed is untouched; at most one session is added,
    at the next index, and it is open; the global track stays; every track
    keeps its codec and its packets and gains at most the new session as a
    consumer; at most the new session's sender RTCP goroutine is started. *)
Theorem handler_footprint E res req w o :
  o = whipHandler E res req w \/ o = whepHandler E res req w ->
  footprint w (world_of o).
Proof.
  intros [->| ->]; [apply whipHandler_footprint|apply whepHandler_footprint].
Qed.

(** A subscriber on [happy]. *)
Lemma handler_footprint_witness :
  footprint accepted0 (world_of (whepHandler happy 0 whepRequest accepted0)).
Proof.
  apply (handler_footprint happy 0 whepRequest accepted0
           (whepHandler happy 0 whepRequest accepted0)).
  by right.
Defined.

(** ** Who closes a session *)

Lemma fanout_closed E cs pkt w pc :
  pcClosed <$> pcs (fst (fanout E cs pkt w)) !! pc = pcClosed <$> pcs w !! pc.
Proof.
  revert w. induction cs as [|c cs IH]; intros w; [done|]. simpl.
  destruct (deliverErr E c pkt); simpl; [apply IH|].
  rewrite IH. wsimpl. rewrite list_lookup_alter.
  case_decide; [subst|done]. by destruct (pcs w !! pc).
Qed.

Lemma serve_sessions E req w pc p :
  pcs w !! pc = Some p -> pcs (serve E req w) !! pc = Some p.
Proof.
  intros Hp. unfold serve.
  destruct (route (mux w) (reqPath req)) as [[dir| | |url]|]; [done| | |done|done].
  - by apply (whepHandler_footprint E _ req
                (set_responses (fun l => l ++ [emptyResponse]) w)).
  - by apply (whipHandler_footprint E _ req
                (set_responses (fun l => l ++ [emptyResponse]) w)).
Qed.

Lemma trackReadLoop_closed E pc r w i :
  pcClosed <$> pcs (world_of (trackReadLoop E pc [r] w)) !! i
    = pcClosed <$> pcs w !! i.
Proof.
  destruct (trackReadLoop_shape E pc r w) as [->|(t & tr & pkt & _ & _ & _ & _ & ->)];
    [done|apply fanout_closed].
Qed.

Lemma step_closed_cases E w ev pc p :
  pcs w !! pc = Some p ->
  pcClosed <$> pcs (step E w ev) !! pc = Some (pcClosed p) \/
  exists i, ev = ICEConnectionStateChanged i ICEConnectionStateFailed /\
    pcs w !! i ≫= pcOnICE = Some (CloseOnFailed pc) /\
    pcClosed <$> pcs (step E w ev) !! pc = Some true.
Proof.
  intros Hp. unfold step. destruct (crashed w); [left; by rewrite Hp|].
  destruct ev as [req|i s|i|i r|i r|i r].
  - left. destruct (serving w); [|by rewrite Hp].
    by rewrite (serve_sessions E req w pc p).
  - assert (pcClosed <$> pcs (updPC i (with_ICE s) w) !! pc = Some (pcClosed p))
      as Hice.
    { wsimpl. rewrite list_lookup_alter. case_decide; subst; by rewrite Hp. }
    destruct (pcs w !! i ≫= pcOnICE) as [[j]|] eqn:Hh; [|by left].
    unfold callback, onICEConnectionStateChange, Printf, mbind, M_bind, modify.
    case_decide as Hs; [subst s|by left].
    unfold PeerConnection_Close. cbn [mret M_ret]. wsimpl.
    revert Hice. wsimpl. intros Hice.
    rewrite list_lookup_alter. case_decide; [subst j|by left].
    right. exists i. split; [done|]. split; [done|].
    destruct (alter (with_ICE ICEConnectionStateFailed) i (pcs w) !! pc);
      [done|discriminate].
  - left. destruct (pcs w !! i ≫= pcOnTrack) as [[]|]; [|by rewrite Hp].
    destruct (hasGoroutine (TrackReadLoop i) w); [by rewrite Hp|].
    unfold callback, onTrack, go, mbind, M_bind, modify. wsimpl. by rewrite Hp.
  - left. destruct (hasGoroutine (TrackReadLoop i) w); [|by rewrite Hp].
    destruct (resume_same (TrackReadLoop i) (trackReadLoop E i [r]) w)
      as (_ & _ & ->). by rewrite trackReadLoop_closed, Hp.
  - left. destruct (hasGoroutine (ReceiverRTCPLoop i) w); [|by rewrite Hp].
    destruct (resume_same (ReceiverRTCPLoop i) (receiverRTCPLoop i [r]) w)
      as (_ & _ & ->). by rewrite receiverRTCPLoop_world, Hp.
  - left. destruct (hasGoroutine (SenderRTCPLoop i) w); [|by rewrite Hp].
    destruct (resume_same (SenderRTCPLoop i) (senderRTCPLoop i [r]) w)
      as (_ & _ & ->). by rewrite senderRTCPLoop_world, Hp.
Qed.

(** X5: a session is closed by nothing but the ICE handler that
    [writeAnswer] installs.  After any event a session is open or closed
    as before, unless the event reports [failed] for a session whose
    handler closes this one; requests, packets and RTCP never close a
    session. *)
Theorem only_ice_failure_closes E w ev pc p :
  pcs w !! pc = Some p ->
  pcClosed <$> pcs (step E w ev) !! pc = Some (pcClosed p) \/
  exists i, ev = ICEConnectionStateChanged i ICEConnectionStateFailed /\
    pcs w !! i ≫= pcOnICE = Some (CloseOnFailed pc) /\
    pcClosed <$> pcs (step E w ev) !! pc = Some true.
Proof. apply step_closed_cases. Qed.

(** A packet from the publisher of [streaming happy] leaves the
    subscriber's session open. *)
Lemma only_ice_failure_closes_witness :
  pcClosed <$> pcs (step happy (streaming happy) (RTPArrives 0 (inr (P 1)))) !! 1%nat
    = Some false \/
  exists i, RTPArrives 0 (inr (P 1)) = ICEConnectionStateChanged i ICEConnectionStateFailed /\
    pcs (streaming happy) !! i ≫= pcOnICE = Some (CloseOnFailed 1) /\
    pcClosed <$> pcs (step happy (streaming happy) (RTPArrives 0 (inr (P 1)))) !! 1%nat
      = Some true.
Proof.
  destruct (only_ice_failure_closes happy (streaming happy)
              (RTPArrives 0 (inr (P 1))) 1
              (default whipSession (pcs (streaming happy) !! 1%nat)))
    as [H|H]; [by_compute| |by right].
  left. rewrite H. by_compute.
Defined.

(** ** The loops *)

Lemma trackReadLoop_not_Done E pc reads w w' :
  trackReadLoop E pc reads w <> Done tt w'.
Proof.
  unfold trackReadLoop. revert w.
  induction reads as [|r reads IH]; intros w; [done|].
  cbn [forLoop]. unfold mbind at 1, M_bind at 1.
  destruct (trackReadBody E pc r w) as [c w1|e w1|w1] eqn:Hb; [|done..].
  assert (c = Continue) as ->; [|apply IH].
  revert Hb.
  unfold trackReadBody, TrackRemote_ReadRTP, mbind, M_bind, must, check,
    panic, get, mret, M_ret.
  repeat case_match; intros; by simplify_eq.
Qed.

Lemma receiverRTCPLoop_not_Done pc reads w w' :
  receiverRTCPLoop pc reads w <> Done tt w'.
Proof.
  unfold receiverRTCPLoop. revert w.
  induction reads as [|r reads IH]; intros w; [done|].
  cbn [forLoop]. unfold mbind at 1, M_bind at 1.
  destruct (receiverRTCPBody pc r w) as [c w1|e w1|w1] eqn:Hb; [|done..].
  assert (c = Continue) as ->; [|apply IH].
  revert Hb.
  unfold receiverRTCPBody, RTPReceiver_ReadRTCP, readRTCP, mbind, M_bind,
    check, panic, mret, M_ret.
  repeat case_match; intros; by simplify_eq.
Qed.

(** X6: the subscriber's RTCP goroutine never panics; when it returns it
    has left the process as it was, and it returns only on a failed read
    (an error from the engine, or the session being closed); on an open
    session whose reads all succeed it keeps reading. *)
Theorem sender_loop_returns_only_on_error pc reads w :
  (forall e w', senderRTCPLoop pc reads w <> Panicked e w') /\
  (forall w', senderRTCPLoop pc reads w = Done tt w' ->
     w' = w /\ (isClosed w pc = true /\ reads <> [] \/ exists e, Some e ∈ reads)) /\
  (isClosed w pc = false -> Forall (fun r => r = None) reads ->
   senderRTCPLoop pc reads w = Parked w).
Proof.
  unfold senderRTCPLoop.
  induction reads as [|r reads (IH1 & IH2 & IH3)]; [by repeat split|].
  cbn [forLoop].
  unfold senderRTCPBody, RTPSender_Read, readRTCP, mbind, M_bind, mret, M_ret.
  destruct (isClosed w pc) eqn:Hc.
  { split; [done|]. split; [|done]. intros w' [= <-]. split; [done|by left]. }
  destruct r as [e|].
  { split; [done|]. split.
    - intros w' [= <-]. split; [done|]. right. exists e. by left.
    - intros _ Hall. by apply Forall_cons_1 in Hall as [? _]. }
  split; [exact IH1|]. split.
  - intros w' H. destruct (IH2 w' H) as [-> [[? _]|[e He]]]; [done|].
    split; [done|]. right. exists e. by right.
  - intros _ Hall. apply Forall_cons_1 in Hall as [_ Hall]. by apply IH3.
Qed.

(** Two good reads on the subscriber of [streaming happy]. *)
Lemma sender_loop_returns_only_on_error_witness :
  senderRTCPLoop 1 [None; None] (streaming happy) = Parked (streaming happy).
Proof.
  destruct (sender_loop_returns_only_on_error 1 [None; None] (streaming happy))
    as (_ & _ & H).
  apply H; [by_compute|by repeat constructor].
Defined.

Lemma fanout_goroutines E cs pkt w :
  goroutines (fst (fanout E cs pkt w)) = goroutines w.
Proof.
  revert w. induction cs as [|c cs IH]; intros w; [done|]. simpl.
  destruct (deliverErr E c pkt); simpl; [apply IH|]. by rewrite IH.
Qed.

Lemma trackReadLoop_goroutines E pc r w :
  goroutines (world_of (trackReadLoop E pc [r] w)) = goroutines w.
Proof.
  unfold trackReadLoop, forLoop, trackReadBody, TrackRemote_ReadRTP,
    mbind, M_bind, must, panic, get, check, mret, M_ret, park.
  destruct (isClosed w pc); [done|].
  destruct r as [e|pkt]; [done|].
  unfold WriteRTP.
  destruct (videoTrack w) as [t|]; simpl; [|done].
  destruct (tracks w !! t) as [tr|]; simpl; [|done].
  case_decide; [done|].
  pose proof (fanout_goroutines E (bindings tr) pkt
                (updTrack t (with_written (fun l => l ++ [pkt])) w)) as Hg.
  destruct (fanout E (bindings tr) pkt
              (updTrack t (with_written (fun l => l ++ [pkt])) w)) as [w' err].
  simpl in Hg. by destruct err.
Qed.

Lemma step_keeps_publisher_loop E w ev g pc :
  g = TrackReadLoop pc \/ g = ReceiverRTCPLoop pc ->
  g ∈ goroutines w -> g ∈ goroutines (step E w ev).
Proof.
  intros Hg Hin. unfold step. destruct (crashed w); [done|].
  destruct ev as [req|i s|i|i r|i r|i r].
  - destruct (serving w); [|done]. unfold serve.
    destruct (route (mux w) (reqPath req)) as [[dir| | |url]|]; [done| | |done|done].
    + destruct (whepHandler_footprint E (length (responses w)) req
                  (set_responses (fun l => l ++ [emptyResponse]) w))
        as (_ & _ & _ & _ & _ & _ & [-> | ->]); [done|].
      apply elem_of_app. by left.
    + destruct (whipHandler_footprint E (length (responses w)) req
                  (set_responses (fun l => l ++ [emptyResponse]) w))
        as (_ & _ & _ & _ & _ & _ & [-> | ->]); [done|].
      apply elem_of_app. by left.
  - destruct (pcs w !! i ≫= pcOnICE) as [[j]|]; [|done].
    unfold callback, onICEConnectionStateChange, Printf, PeerConnection_Close,
      mbind, M_bind, modify, mret, M_ret.
    by case_decide.
  - destruct (pcs w !! i ≫= pcOnTrack) as [[]|]; [|done].
    destruct (hasGoroutine (TrackReadLoop i) w); [done|].
    unfold callback, onTrack, go, mbind, M_bind, modify. wsimpl.
    apply elem_of_app. left. apply elem_of_app. by left.
  - destruct (hasGoroutine (TrackReadLoop i) w); [|done].
    pose proof (trackReadLoop_goroutines E i r w) as Hgo.
    pose proof (trackReadLoop_not_Done E i [r] w) as Hnd.
    unfold resume.
    destruct (trackReadLoop E i [r] w) as [[] w'|e w'|w'];
      [by destruct (Hnd w')|simpl in *; by rewrite Hgo..].
  - destruct (hasGoroutine (ReceiverRTCPLoop i) w); [|done].
    pose proof (receiverRTCPLoop_world i r w) as Hw.
    pose proof (receiverRTCPLoop_not_Done i [r] w) as Hnd.
    unfold resume.
    destruct (receiverRTCPLoop i [r] w) as [[] w'|e w'|w'];
      [by destruct (Hnd w')|simpl in *; by subst..].
  - destruct (hasGoroutine (SenderRTCPLoop i) w); [|done].
    pose proof (senderRTCPLoop_world i r w) as Hw.
    unfold resume.
    destruct (senderRTCPLoop i [r] w) as [[] w'|e w'|w']; simpl in *; subst;
      [|done..].
    wsimpl. apply list_elem_of_filter. split; [|done].
    by destruct Hg as [-> | ->].
Qed.

Lemma run_keeps_publisher_loop E w evs g pc :
  g = TrackReadLoop pc \/ g = ReceiverRTCPLoop pc ->
  g ∈ goroutines w -> g ∈ goroutines (run E w evs).
Proof.
  intros Hg. unfold run. revert w.
  induction evs as [|ev evs IH]; intros w Hin; [done|].
  cbn [foldl]. apply IH. by apply step_keeps_publisher_loop with (pc := pc).
Qed.

(** X7: the publisher's two loops have no way out but a panic.  Neither
    the packet loop nor the receiver RTCP loop ever returns, whatever is
    read, and no event (the closing of the loop's own session included)
    takes a running loop off the process's goroutines. *)
Theorem publisher_loops_never_end E w evs g pc :
  g = TrackReadLoop pc \/ g = ReceiverRTCPLoop pc ->
  g ∈ goroutines w ->
  g ∈ goroutines (run E w evs) /\
  (forall reads w0 w', trackReadLoop E pc reads w0 <> Done tt w') /\
  (forall reads w0 w', receiverRTCPLoop pc reads w0 <> Done tt w').
Proof.
  intros Hg Hin. split; [by apply run_keeps_publisher_loop with (pc := pc)|].
  split; intros reads w0 w';
    [apply trackReadLoop_not_Done|apply receiverRTCPLoop_not_Done].
Qed.

(** The publisher of [streaming happy] fails: its packet loop is still
    there. *)
Lemma publisher_loops_never_end_witness :
  TrackReadLoop 0 ∈
    goroutines (run happy (streaming happy)
                  [ICEConnectionStateChanged 0 ICEConnectionStateFailed]).
Proof.
  destruct (publisher_loops_never_end happy (streaming happy)
              [ICEConnectionStateChanged 0 ICEConnectionStateFailed]
              (TrackReadLoop 0) 0) as (H & _ & _); [by left|elem_compute|].
  exact H.
Defined.

(** ** Forwarding in order *)

Lemma fanout_ok E cs pkt w :
  (forall c, c ∈ cs -> deliverErr E c pkt = None) ->
  snd (fanout E cs pkt w) = None.
Proof.
  revert w. induction cs as [|c cs IH]; intros w Hok; [done|]. simpl.
  rewrite (Hok c) by by left. apply IH. intros c' Hc'. apply Hok. by right.
Qed.

Lemma fanout_inbox_member E cs pkt w s :
  NoDup cs -> s ∈ cs -> deliverErr E s pkt = None ->
  (s < length (pcs w))%nat ->
  inbox (fst (fanout E cs pkt w)) s = inbox w s ++ [pkt].
Proof.
  revert w. induction cs as [|c cs IH]; intros w Hnd Hin Hok Hlt.
  { by apply elem_of_nil in Hin. }
  apply NoDup_cons in Hnd as [Hc Hnd]. simpl.
  destruct (decide (s = c)) as [->|Hne].
  - rewrite Hok. rewrite fanout_inbox_other by done. unfold inbox. wsimpl.
    rewrite list_lookup_alter_eq.
    destruct (lookup_lt_is_Some_2 (pcs w) c Hlt) as [p ->]. done.
  - apply elem_of_cons in Hin as [?|Hin]; [done|].
    destruct (deliverErr E c pkt); simpl; [by apply IH|].
    rewrite IH; [|done..|by wsimpl; rewrite length_alter].
    unfold inbox. wsimpl. by rewrite list_lookup_alter_ne.
Qed.

Lemma fanout_isClosed E cs pkt w pc :
  isClosed (fst (fanout E cs pkt w)) pc = isClosed w pc.
Proof.
  unfold isClosed. pose proof (fanout_closed E cs pkt w pc) as H.
  destruct (pcs (fanout E cs pkt w).1 !! pc), (pcs w !! pc); by simplify_eq/=.
Qed.

Lemma fanout_length E cs pkt w :
  length (pcs (fst (fanout E cs pkt w))) = length (pcs w).
Proof.
  revert w. induction cs as [|c cs IH]; intros w; [done|]. simpl.
  destruct (deliverErr E c pkt); simpl; [apply IH|].
  rewrite IH. wsimpl. apply length_alter.
Qed.

(** The read loop over packets that all arrive and all get delivered. *)
(** X8: on an open session, with a track of non-empty codec and no failing
    delivery, the packet loop forwards every packet it reads and keeps
    reading: the Relay Track has the packets appended in the order read,
    every consumer has received exactly them, in that order, and no other
    session has received anything. *)
Theorem read_loop_forwards_in_order E pc pkts w t tr :
  videoTrack w = Some t -> tracks w !! t = Some tr ->
  MimeType (trackCodec tr) <> EmptyString -> NoDup (bindings tr) ->
  isClosed w pc = false ->
  (forall c pkt, c ∈ bindings tr -> deliverErr E c pkt = None) ->
  exists w',
    trackReadLoop E pc (inr <$> pkts) w = Parked w' /\
    writes w' = writes w ++ pkts /\
    (forall s, s ∈ bindings tr -> (s < length (pcs w))%nat ->
       inbox w' s = inbox w s ++ pkts) /\
    (forall s, s ∉ bindings tr -> inbox w' s = inbox w s).
Proof.
  intros Hv Ht Hm Hnd Hc Hok. unfold trackReadLoop.
  revert w tr Hv Ht Hm Hnd Hc Hok.
  induction pkts as [|pkt pkts IH]; intros w tr Hv Ht Hm Hnd Hc Hok.
  { exists w. rewrite !app_nil_r. repeat split; try done.
    intros; by rewrite app_nil_r. }
  cbn [fmap list_fmap forLoop].
  set (w1 := fst (fanout E (bindings tr) pkt
                    (updTrack t (with_written (fun l => l ++ [pkt])) w))).
  assert (trackReadBody E pc (inr pkt) w = Done Continue w1) as Hbody.
  { unfold trackReadBody, TrackRemote_ReadRTP, mbind, M_bind, must, get, check,
      mret, M_ret, WriteRTP.
    rewrite Hc, Hv. simpl. rewrite Ht. simpl. rewrite decide_False by done.
    pose proof (fanout_ok E (bindings tr) pkt
                  (updTrack t (with_written (fun l => l ++ [pkt])) w)
                  (fun c Hc' => Hok c pkt Hc')) as Herr.
    subst w1.
    destruct (fanout E (bindings tr) pkt
                (updTrack t (with_written (fun l => l ++ [pkt])) w)) as [w' err].
    simpl in *. by subst. }
  erewrite bind_step by exact Hbody.
  destruct (fanout_frame E (bindings tr) pkt
              (updTrack t (with_written (fun l => l ++ [pkt])) w)) as [Hv1 Ht1].
  fold w1 in Hv1, Ht1. wsimpl.
  destruct (IH w1 (with_written (fun l => l ++ [pkt]) tr)) as (w' & Hrun & Hw & Hin & Hout).
  - by rewrite Hv1.
  - by rewrite Ht1, list_lookup_alter_eq, Ht.
  - done.
  - done.
  - subst w1. by rewrite fanout_isClosed.
  - done.
  - exists w'. split; [exact Hrun|]. psimpl.
    assert (writes w1 = writes w ++ [pkt]) as Hw1.
    { unfold writes. rewrite Hv1, Ht1, Hv. simpl.
      by rewrite list_lookup_alter_eq, Ht. }
    assert (length (pcs w1) = length (pcs w)) as Hlen.
    { subst w1. by rewrite fanout_length. }
    split; [by rewrite Hw, Hw1, <- app_assoc|]. split.
    + intros s Hs Hlt. rewrite Hin by (by rewrite ?Hlen).
      subst w1. rewrite fanout_inbox_member by (by auto).
      unfold inbox at 1. wsimpl. fold (inbox w s). by rewrite <- app_assoc.
    + intros s Hs. rewrite Hout by done.
      subst w1. by rewrite fanout_inbox_other.
Qed.

(** Two packets through [streaming happy]. *)
Lemma read_loop_forwards_in_order_witness :
  exists w',
    trackReadLoop happy 0 [inr (P 1); inr (P 2)] (streaming happy) = Parked w' /\
    writes w' = [P 1; P 2] /\ inbox w' 1 = [P 1; P 2] /\ inbox w' 0 = [].
Proof.
  destruct (read_loop_forwards_in_order happy 0 [P 1; P 2] (streaming happy) 0
              (default relayTrack (tracks (streaming happy) !! 0%nat)))
    as (w' & Hrun & Hw & Hin & Hout);
    [by_compute|by_compute|by_compute|elem_compute|by_compute|done|].
  exists w'. split; [exact Hrun|]. split; [rewrite Hw; by_compute|]. split.
  - rewrite (Hin 1%nat); [by_compute|elem_compute|vm_compute; lia].
  - rewrite (Hout 0%nat); [by_compute|elem_compute].
Defined.

(** ** Who writes to the Relay Track *)

Lemma step_session_onTrack E w ev pc p :
  pcs w !! pc = Some p ->
  exists p', pcs (step E w ev) !! pc = Some p' /\ pcOnTrack p' = pcOnTrack p.
Proof.
  intros Hp. destruct (step_shape E w ev) as [(w0 & Ho & (_ & _ & Hs))|Hf].
  - assert (pcs w0 !! pc = Some p) as Hp0.
    { destruct Ho as (_ & [[-> _]|[(p0 & _ & -> & _)|(t & p0 & _ & _ & -> & _)]]);
        [done|by apply lookup_app_l_Some..]. }
    destruct (Forall2_lookup_l _ _ _ _ _ Hs Hp0) as (p' & Hp' & (_ & _ & Hon & _)).
    by exists p'.
  - destruct Hf as (t & tr & pkt & _ & _ & _ & _ & Hpcs).
    pose proof (fanout_sessions E (bindings tr) pkt w) as Hs.
    destruct (Forall2_lookup_l _ _ _ _ _ Hs Hp) as (p' & Hp' & (_ & _ & Hon & _)).
    exists p'. by rewrite Hpcs.
Qed.

Lemma step_new_publisher_loop E w ev g pc :
  g = TrackReadLoop pc \/ g = ReceiverRTCPLoop pc ->
  g ∈ goroutines (step E w ev) ->
  g ∈ goroutines w \/ pcs w !! pc ≫= pcOnTrack = Some ForwardToVideoTrack.
Proof.
  intros Hg. unfold step. destruct (crashed w); [by left|].
  destruct ev as [req|i s|i|i r|i r|i r].
  - destruct (serving w); [|by left]. unfold serve.
    destruct (route (mux w) (reqPath req)) as [[dir| | |url]|];
      [by left| | |by left|by left].
    + destruct (whepHandler_footprint E (length (responses w)) req
                  (set_responses (fun l => l ++ [emptyResponse]) w))
        as (_ & _ & _ & _ & _ & _ & [-> | ->]); [by left|].
      intros [?|Hin%list_elem_of_singleton]%elem_of_app; [by left|].
      destruct Hg; by subst.
    + destruct (whipHandler_footprint E (length (responses w)) req
                  (set_responses (fun l => l ++ [emptyResponse]) w))
        as (_ & _ & _ & _ & _ & _ & [-> | ->]); [by left|].
      intros [?|Hin%list_elem_of_singleton]%elem_of_app; [by left|].
      destruct Hg; by subst.
  - destruct (pcs w !! i ≫= pcOnICE) as [[j]|]; [|by left].
    unfold callback, onICEConnectionStateChange, Printf, PeerConnection_Close,
      mbind, M_bind, modify, mret, M_ret.
    case_decide; by left.
  - destruct (pcs w !! i ≫= pcOnTrack) as [[]|] eqn:Hon; [|by left].
    destruct (hasGoroutine (TrackReadLoop i) w); [by left|].
    unfold callback, onTrack, go, mbind, M_bind, modify. wsimpl.
    intros [[?|Hin%list_elem_of_singleton]%elem_of_app|Hin%list_elem_of_singleton]%elem_of_app;
      [by left|right..]; destruct Hg; by simplify_eq.
  - destruct (hasGoroutine (TrackReadLoop i) w); [|by left].
    pose proof (trackReadLoop_goroutines E i r w) as Hgo.
    unfold resume.
    destruct (trackReadLoop E i [r] w) as [[] w'|e w'|w']; simpl in *;
      wsimpl; rewrite Hgo; [|by left..].
    intros [_ ?]%list_elem_of_filter. by left.
  - destruct (hasGoroutine (ReceiverRTCPLoop i) w); [|by left].
    pose proof (receiverRTCPLoop_world i r w) as Hw.
    unfold resume.
    destruct (receiverRTCPLoop i [r] w) as [[] w'|e w'|w']; simpl in *; subst;
      wsimpl; [|by left..].
    intros [_ ?]%list_elem_of_filter. by left.
  - destruct (hasGoroutine (SenderRTCPLoop i) w); [|by left].
    pose proof (senderRTCPLoop_world i r w) as Hw.
    unfold resume.
    destruct (senderRTCPLoop i [r] w) as [[] w'|e w'|w']; simpl in *; subst;
      wsimpl; [|by left..].
    intros [_ ?]%list_elem_of_filter. by left.
Qed.

Lemma run_publisher_loops E w evs :
  (forall g pc, g = TrackReadLoop pc \/ g = ReceiverRTCPLoop pc ->
     g ∈ goroutines w -> pcs w !! pc ≫= pcOnTrack = Some ForwardToVideoTrack) ->
  forall g pc, g = TrackReadLoop pc \/ g = ReceiverRTCPLoop pc ->
    g ∈ goroutines (run E w evs) ->
    pcs (run E w evs) !! pc ≫= pcOnTrack = Some ForwardToVideoTrack.
Proof.
  unfold run. revert w. induction evs as [|ev evs IH]; intros w HG; [done|].
  cbn [foldl]. apply IH. intros g pc Hg Hin.
  assert (pcs w !! pc ≫= pcOnTrack = Some ForwardToVideoTrack) as Hon.
  { destruct (step_new_publisher_loop E w ev g pc Hg Hin); [by eapply HG|done]. }
  destruct (pcs w !! pc) as [p|] eqn:Hp; [|done]. simpl in Hon.
  destruct (step_session_onTrack E w ev pc p Hp) as (p' & -> & Hon').
  simpl. by rewrite Hon'.
Qed.

(** X9: at every point of every run, a running packet loop or receiver
    RTCP loop belongs to a session that has the forwarding track handler:
    a session built on the H264-only media engine that has negotiated
    nothing but H264 with payload type 96.  Only such sessions write to the
    Relay Track. *)
Theorem read_loops_belong_to_publishers E evs g pc :
  failure E CallNewTrack 0 = None ->
  g = TrackReadLoop pc \/ g = ReceiverRTCPLoop pc ->
  g ∈ goroutines (run E (boot E) evs) ->
  exists p, pcs (run E (boot E) evs) !! pc = Some p /\
    pcOnTrack p = Some ForwardToVideoTrack /\
    apiMediaEngine (pcAPI p) = mkMediaEngine [H264_96] [] /\
    forall c, c ∈ pcNegotiated p -> c = H264_96.
Proof.
  intros Hnew Hg Hin.
  assert (pcs (run E (boot E) evs) !! pc ≫= pcOnTrack = Some ForwardToVideoTrack)
    as Hon.
  { apply (run_publisher_loops E (boot E) evs) with (g := g); [|done..].
    intros g' pc' _. destruct (main_registered E Hnew) as (_ & _ & _ & _ & -> & _).
    by intros ?%elem_of_nil. }
  destruct (pcs (run E (boot E) evs) !! pc) as [p|] eqn:Hp; [|done].
  simpl in Hon. exists p. split; [done|]. split; [done|].
  destruct (run_Inv E _ evs (boot_Inv E Hnew)) as (_ & _ & Hgood).
  rewrite Forall_lookup in Hgood. destruct (Hgood pc p Hp) as (_ & G2 & G3).
  split; [by apply G2|].
  intros c Hc. apply G3 in Hc. unfold apiCodecs in Hc.
  rewrite (G2 Hon) in Hc. cbn [videoCodecs audioCodecs app] in Hc.
  by apply list_elem_of_singleton in Hc.
Qed.

(** The packet loop of [streaming happy]. *)
Lemma read_loops_belong_to_publishers_witness :
  exists p, pcs (streaming happy) !! 0%nat = Some p /\
    pcOnTrack p = Some ForwardToVideoTrack /\
    apiMediaEngine (pcAPI p) = mkMediaEngine [H264_96] [] /\
    forall c, c ∈ pcNegotiated p -> c = H264_96.
Proof.
  apply (read_loops_belong_to_publishers happy
           [postWhip "v=0 offer"; RemoteTrack 0; postWhep "v=0 offer"]
           (TrackReadLoop 0) 0); [by_compute|by left|elem_compute].
Defined.

(** ** Whose failure closes a session *)

Lemma writeAnswer_onICE E res pc offer path w :
  exists f,
    pcs (world_of (writeAnswer E res pc offer path w)) = alter f pc (pcs w) /\
    forall p, pcOnICE (f p) = Some (CloseOnFailed pc).
Proof.
  destruct (writeAnswer_cases E res pc offer path w)
    as [[e ->]|[(e & p & _ & ->)|[(p & a & _ & _ & ->)|(p & a & cs & _ & _ & ->)]]];
    unfold offered3, offered2, offered1, afterAnswer; wsimpl;
    rewrite ?list_alter_alter_eq; eexists; (split; [reflexivity|done]).
Qed.

Lemma ownHandlers_snoc w w' (p0 : PeerConnection) :
  ownHandlers w -> pcs w' = pcs w ++ [p0] ->
  (pcOnICE p0 = None \/ pcOnICE p0 = Some (CloseOnFailed (length (pcs w)))) ->
  ownHandlers w'.
Proof.
  intros Hown Hp Hnew i p j Hi Hj. rewrite Hp in Hi.
  apply lookup_app_Some in Hi as [Hi|[Hge Hi]]; [by eapply Hown|].
  destruct (i - length (pcs w))%nat eqn:Hd; [|by destruct n].
  simpl in Hi. simplify_eq. destruct Hnew as [Hn|Hn]; rewrite Hn in Hj; [done|].
  simplify_eq. lia.
Qed.

Lemma ownHandlers_whip E res req w :
  ownHandlers w -> ownHandlers (world_of (whipHandler E res req w)).
Proof.
  intros Hown.
  destruct (whipHandler_cases E res req w)
    as [[e ->]|[[e ->]|(offer & _ & _ & ->)]]; [done| |].
  - eapply ownHandlers_snoc; [done|done|by left].
  - destruct (writeAnswer_onICE E res (length (pcs w)) offer "/whip"
                (set_pcs (fun l => l ++ [whipSession]) w)) as (f & Hp & Hf).
    eapply ownHandlers_snoc; [done| |right; apply (Hf whipSession)].
    rewrite Hp. wsimpl. by rewrite alter_snoc.
Qed.

Lemma ownHandlers_whep E res req w :
  ownHandlers w -> ownHandlers (world_of (whepHandler E res req w)).
Proof.
  intros Hown.
  destruct (whepHandler_cases E res req w)
    as [[e ->]|[[e ->]|(offer & t & _ & _ & _ & ->)]]; [done| |].
  - eapply ownHandlers_snoc; [done|done|by left].
  - match goal with |- context [writeAnswer _ _ _ _ _ ?w0] =>
      destruct (writeAnswer_onICE E res (length (pcs w)) offer "/whep" w0)
        as (f & Hp & Hf) end.
    eapply ownHandlers_snoc; [done| |right; apply (Hf (whepSession E t))].
    rewrite Hp. wsimpl. by rewrite alter_snoc.
Qed.

Lemma ownHandlers_pcs w w' :
  (forall i, pcOnICE <$> pcs w' !! i = pcOnICE <$> pcs w !! i) ->
  ownHandlers w -> ownHandlers w'.
Proof.
  intros Heq Hown i p j Hi Hj. specialize (Heq i). rewrite Hi in Heq. simpl in Heq.
  destruct (pcs w !! i) as [p0|] eqn:Hp0; [|done]. simpl in Heq.
  apply (Hown i p0 j Hp0). congruence.
Qed.

Lemma fanout_onICE E cs pkt w i :
  pcOnICE <$> pcs (fst (fanout E cs pkt w)) !! i = pcOnICE <$> pcs w !! i.
Proof.
  revert w. induction cs as [|c cs IH]; intros w; [done|]. simpl.
  destruct (deliverErr E c pkt); simpl; [apply IH|].
  rewrite IH. wsimpl. rewrite list_lookup_alter.
  case_decide; [subst|done]. by destruct (pcs w !! i).
Qed.

Lemma step_ownHandlers E w ev : ownHandlers w -> ownHandlers (step E w ev).
Proof.
  intros Hown. unfold step. destruct (crashed w); [done|].
  destruct ev as [req|i s|i|i r|i r|i r].
  - destruct (serving w); [|done]. unfold serve.
    destruct (route (mux w) (reqPath req)) as [[dir| | |url]|]; [done| | |done|done].
    + by apply ownHandlers_whep.
    + by apply ownHandlers_whip.
  - eapply ownHandlers_pcs; [|exact Hown]. intros k.
    assert (pcOnICE <$> pcs (updPC i (with_ICE s) w) !! k = pcOnICE <$> pcs w !! k)
      as Hice.
    { wsimpl. rewrite list_lookup_alter. case_decide; [subst|done].
      by destruct (pcs w !! k). }
    destruct (pcs w !! i ≫= pcOnICE) as [[j]|]; [|done].
    unfold callback, onICEConnectionStateChange, Printf, PeerConnection_Close,
      mbind, M_bind, modify, mret, M_ret.
    case_decide; [|done]. revert Hice. wsimpl. intros Hice.
    rewrite list_lookup_alter. case_decide; [subst|done].
    rewrite <- Hice.
    by destruct (alter (with_ICE ICEConnectionStateFailed) i (pcs w) !! k).
  - destruct (pcs w !! i ≫= pcOnTrack) as [[]|]; [|done].
    by destruct (hasGoroutine (TrackReadLoop i) w).
  - destruct (hasGoroutine (TrackReadLoop i) w); [|done].
    eapply ownHandlers_pcs; [|exact Hown]. intros k.
    destruct (resume_same (TrackReadLoop i) (trackReadLoop E i [r]) w)
      as (_ & _ & ->).
    destruct (trackReadLoop_shape E i r w)
      as [->|(t & tr & pkt & _ & _ & _ & _ & ->)]; [done|apply fanout_onICE].
  - destruct (hasGoroutine (ReceiverRTCPLoop i) w); [|done].
    eapply ownHandlers_pcs; [|exact Hown]. intros k.
    destruct (resume_same (ReceiverRTCPLoop i) (receiverRTCPLoop i [r]) w)
      as (_ & _ & ->). by rewrite receiverRTCPLoop_world.
  - destruct (hasGoroutine (SenderRTCPLoop i) w); [|done].
    eapply ownHandlers_pcs; [|exact Hown]. intros k.
    destruct (resume_same (SenderRTCPLoop i) (senderRTCPLoop i [r]) w)
      as (_ & _ & ->). by rewrite senderRTCPLoop_world.
Qed.

Lemma run_ownHandlers E w evs : ownHandlers w -> ownHandlers (run E w evs).
Proof.
  unfold run. revert w. induction evs as [|ev evs IH]; intros w H; [done|].
  cbn [foldl]. apply IH. by apply step_ownHandlers.
Qed.

Lemma boot_pcs E : pcs (boot E) = [].
Proof.
  unfold boot, callback, main, NewTrackLocalStaticRTP, Handle, Println,
    ListenAndServe, mbind, M_bind, modify, check, panic, mret, M_ret.
  cbn [tracks initial length].
  destruct (failure E CallNewTrack 0); [done|].
  by destruct (failure E CallListenAndServe 0).
Qed.

(** X10: in every run from [main], the ICE handler of a session captures
    that session and no other, so a connectivity change reported for one
    session, [failed] included, leaves every other session open or closed
    as it was. *)
Theorem failure_closes_own_session_only E evs i s pc p :
  pcs (run E (boot E) evs) !! pc = Some p -> pc <> i ->
  pcClosed <$> pcs (step E (run E (boot E) evs) (ICEConnectionStateChanged i s)) !! pc
    = Some (pcClosed p).
Proof.
  intros Hp Hne.
  assert (ownHandlers (run E (boot E) evs)) as Hown.
  { apply run_ownHandlers. intros k q j Hk. by rewrite boot_pcs in Hk. }
  destruct (step_closed_cases E (run E (boot E) evs)
              (ICEConnectionStateChanged i s) pc p Hp)
    as [H|(k & Hev & Hh & _)]; [done|].
  injection Hev as <- _.
  destruct (pcs (run E (boot E) evs) !! i) as [q|] eqn:Hq; [|done]. simpl in Hh.
  by destruct (Hown i q pc Hq Hh).
Qed.

(** The publisher of [streaming happy] fails: the subscriber stays open. *)
Lemma failure_closes_own_session_only_witness :
  pcClosed <$> pcs (iceFailed happy 0 (streaming happy)) !! 1%nat = Some false.
Proof.
  unfold iceFailed, streaming.
  rewrite (failure_closes_own_session_only happy
             [postWhip "v=0 offer"; RemoteTrack 0; postWhep "v=0 offer"]
             0 ICEConnectionStateFailed 1
             (default whipSession (pcs (streaming happy) !! 1%nat)));
    [by_compute|by_compute|done].
Defined.

(** ** The 201 response *)

(** C7: a successful negotiation is answered with status 201, a single
    [Location] header whose value is the handler's path ([/whip] for the
    publisher, [/whep] for the subscriber), and as body the SDP of the
    session's local description, an answer.  Whenever a handler returns,
    this is the response it has written; and it does return, with the
    answer and the gathered candidates as the body, whenever its set-up
    calls succeed and the engine can take the session through the
    exchange.  [res] is the request's fresh response writer. *)
Theorem created_response E res req w path h :
  responses w !! res = Some emptyResponse ->
  h = whipHandler E res req w /\ path = "/whip" \/
  h = whepHandler E res req w /\ path = "/whep" ->
  (forall w', h = Done tt w' ->
     exists d,
       pcs w' !! length (pcs w) ≫= pcLocal = Some d /\
       Type_ d = SDPTypeAnswer /\
       responses w' !! res =
         Some {| respHeader := [("Location", path)];
                 respStatus := Some 201;
                 respBody := SDP d |}) /\
  (forall offer answer cs p,
     reqBody req = inr offer ->
     path = "/whip" /\ whipReady E (length (pcs w)) /\ p = whipSession \/
     path = "/whep" /\ whepReady E (length (pcs w)) /\
       (exists t, videoTrack w = Some t /\ p = whepSession E t) ->
     negotiable E (length (pcs w)) p offer answer cs ->
     exists w' d,
       h = Done tt w' /\
       pcs w' !! length (pcs w) ≫= pcLocal = Some d /\
       d = mkSD SDPTypeAnswer (answer +:+ String.concat EmptyString cs) /\
       responses w' !! res =
         Some {| respHeader := [("Location", path)];
                 respStatus := Some 201;
                 respBody := answer +:+ String.concat EmptyString cs |}).
Proof.
  intros Hres Hh. split.
  - intros w' Hd.
    assert (whipHandler E res req w = Done tt w' /\ path = "/whip" \/
            whepHandler E res req w = Done tt w' /\ path = "/whep") as H.
    { destruct Hh as [[-> ->]|[-> ->]]; [by left|by right]. }
    apply handler_Done in H
      as (p & w0 & offer & answer & cs & _ & _ & Hpcs & Hresp & _ & ->).
    unfold afterAnswer; wsimpl.
    rewrite Hpcs, Hresp, alter_snoc, lookup_snoc, list_lookup_alter_eq, Hres.
    eexists. split; [reflexivity|]. split; [reflexivity|]. reflexivity.
  - intros offer answer cs p Hreq Hready Hn.
    destruct Hh as [[-> ->]|[-> ->]];
      destruct Hready as [(Hp & Hr & Hs)|(Hp & Hr & t & Ht & Hs)];
      try discriminate Hp; subst p.
    + rewrite (whipHandler_ready E res req offer) by done.
      erewrite writeAnswer_accepts; [|wsimpl; apply lookup_snoc|done].
      eexists _, _. split; [reflexivity|].
      unfold afterAnswer; wsimpl.
      rewrite alter_snoc, lookup_snoc, list_lookup_alter_eq, Hres.
      split; [reflexivity|]. split; reflexivity.
    + rewrite (whepHandler_ready E res req offer t) by done.
      erewrite writeAnswer_accepts; [|wsimpl; apply lookup_snoc|done].
      eexists _, _. split; [reflexivity|].
      unfold afterAnswer; wsimpl.
      rewrite alter_snoc, lookup_snoc, list_lookup_alter_eq, Hres.
      split; [reflexivity|]. split; reflexivity.
Qed.

(** The publisher's first request on [happy] is answered. *)
Lemma created_response_witness :
  exists w',
    whipHandler happy 0 whipRequest accepted0 = Done tt w' /\
    responses w' !! 0%nat =
      Some {| respHeader := [("Location", "/whip")];
              respStatus := Some 201;
              respBody := "v=0 answer;a=candidate:host;a=candidate:srflx;" |}.
Proof.
  destruct (created_response happy 0 whipRequest accepted0 "/whip"
              (whipHandler happy 0 whipRequest accepted0))
    as [_ H]; [reflexivity|by left|].
  destruct (H "v=0 offer" "v=0 answer;"
              ["a=candidate:host;"; "a=candidate:srflx;"] whipSession)
    as (w' & d & Hd & _ & _ & Hr).
  - reflexivity.
  - left. split; [reflexivity|]. split; [|reflexivity]. repeat split; by_compute.
  - repeat split; by_compute.
  - exists w'. split; [exact Hd|exact Hr].
Defined.

(** ** No producer slot *)

Lemma run_nil E w : run E w [] = w.
Proof. reflexivity. Qed.

(** One packet through a running packet loop whose writes succeed. *)
Lemma step_forwards E w pc pkt t tr :
  crashed w = None -> TrackReadLoop pc ∈ goroutines w ->
  isClosed w pc = false ->
  videoTrack w = Some t -> tracks w !! t = Some tr ->
  MimeType (trackCodec tr) <> EmptyString ->
  (forall c, c ∈ bindings tr -> deliverErr E c pkt = None) ->
  step E w (RTPArrives pc (inr pkt)) =
    fst (fanout E (bindings tr) pkt
           (updTrack t (with_written (fun l => l ++ [pkt])) w)).
Proof.
  intros Hcr Hg Hc Hv Ht Hm Hok. unfold step. rewrite Hcr.
  rewrite (hasGoroutine_true _ _ Hg).
  unfold resume, trackReadLoop, forLoop, trackReadBody, TrackRemote_ReadRTP,
    mbind, M_bind, must, get, check, mret, M_ret, WriteRTP, park.
  rewrite Hc, Hv. simpl. rewrite Ht. simpl. rewrite decide_False by done.
  pose proof (fanout_ok E (bindings tr) pkt
                (updTrack t (with_written (fun l => l ++ [pkt])) w) Hok) as Herr.
  destruct (fanout E (bindings tr) pkt
              (updTrack t (with_written (fun l => l ++ [pkt])) w)) as [w' err].
  simpl in *. by subst.
Qed.

Lemma fanout_rest E cs pkt w :
  goroutines (fst (fanout E cs pkt w)) = goroutines w /\
  crashed (fst (fanout E cs pkt w)) = crashed w.
Proof.
  revert w. induction cs as [|c cs IH]; intros w; [done|]. simpl.
  destruct (deliverErr E c pkt); simpl; [apply IH|].
  destruct (IH (updPC c (with_inbox (fun l => l ++ [pkt])) w)) as [-> ->]. done.
Qed.

(** The remote track of a session with the forwarding handler arrives:
    its packet loop runs. *)
Lemma step_starts_loop E w pc p :
  crashed w = None -> pcs w !! pc = Some p ->
  pcOnTrack p = Some ForwardToVideoTrack ->
  TrackReadLoop pc ∈ goroutines (step E w (RemoteTrack pc)).
Proof.
  intros Hcr Hp Hon. unfold step. rewrite Hcr, Hp. simpl. rewrite Hon.
  unfold hasGoroutine. case_bool_decide as Hin; [done|].
  unfold callback, onTrack, go, mbind, M_bind, modify. wsimpl.
  rewrite !elem_of_app, !list_elem_of_singleton. auto.
Qed.

(** C3, amended: the code keeps no producer slot.  Whatever sessions there
    are, a request to [/whip] whose set-up calls succeed and whose offer
    the engine can take through the exchange returns with the 201
    response.  Its session, with the answer as its local description, is
    one more open session with the forwarding track handler; the sessions,
    the tracks, the running loops and the state of the process that were
    there stay as they were.  When its
    remote track arrives its packet loop starts beside the others, and at
    every later point each session whose packet loop is running, the new
    one and the earlier ones alike, has every packet it reads written to
    the Relay Track, as long as the session is open and the write
    succeeds. *)
Theorem whip_always_accepted E res req offer answer cs w :
  reqBody req = inr offer ->
  whipReady E (length (pcs w)) ->
  negotiable E (length (pcs w)) whipSession offer answer cs ->
  exists w' p,
    whipHandler E res req w = Done tt w' /\
    isPublisher p = true /\
    pcLocal p = Some (mkSD SDPTypeAnswer (answer +:+ String.concat EmptyString cs)) /\
    pcs w' = pcs w ++ [p] /\
    activePublishers w' = activePublishers w ++ [p] /\
    tracks w' = tracks w /\
    (created "/whip" (answer +:+ String.concat EmptyString cs) <$> responses w !! res)
      = responses w' !! res /\
    goroutines w' = goroutines w /\ crashed w' = crashed w /\
    videoTrack w' = videoTrack w /\
    (crashed w = None ->
     TrackReadLoop (length (pcs w))
       ∈ goroutines (step E w' (RemoteTrack (length (pcs w))))) /\
    (forall evs pc pkt t tr,
       crashed (run E w' evs) = None ->
       TrackReadLoop pc ∈ goroutines (run E w' evs) ->
       isClosed (run E w' evs) pc = false ->
       videoTrack (run E w' evs) = Some t ->
       tracks (run E w' evs) !! t = Some tr ->
       MimeType (trackCodec tr) <> EmptyString ->
       (forall c, c ∈ bindings tr -> deliverErr E c pkt = None) ->
       writes (step E (run E w' evs) (RTPArrives pc (inr pkt)))
         = writes (run E w' evs) ++ [pkt] /\
       goroutines (step E (run E w' evs) (RTPArrives pc (inr pkt)))
         = goroutines (run E w' evs) /\
       crashed (step E (run E w' evs) (RTPArrives pc (inr pkt))) = None).
Proof.
  intros Hreq Hready Hn.
  set (p := answered (length (pcs w)) offer
              (negotiate E (pcAPI whipSession) offer)
              (answer +:+ String.concat EmptyString cs) whipSession).
  set (w' := afterAnswer E res (length (pcs w)) whipSession offer "/whip"
               answer cs (set_pcs (fun l => l ++ [whipSession]) w)).
  assert (pcs w' = pcs w ++ [p]) as Hpcs.
  { subst w' p. unfold afterAnswer; wsimpl. by rewrite alter_snoc. }
  assert (tracks w' = tracks w /\ goroutines w' = goroutines w /\
          crashed w' = crashed w /\ videoTrack w' = videoTrack w /\
          responses w' =
            alter (created "/whip" (answer +:+ String.concat EmptyString cs))
              res (responses w)) as (Htr & Hgo & Hcr & Hvt & Hresp).
  { subst w'. unfold afterAnswer; wsimpl. done. }
  exists w', p. split.
  { rewrite (whipHandler_ready E res req offer) by done.
    apply writeAnswer_accepts with (p := whipSession); [|done].
    wsimpl. apply lookup_snoc. }
  clearbody w'.
  split; [done|]. split; [done|]. split; [done|].
  split; [unfold activePublishers; rewrite Hpcs; by rewrite filter_snoc|].
  split; [done|]. split; [by rewrite Hresp, list_lookup_alter_eq|].
  split; [done|]. split; [done|]. split; [done|]. split.
  - intros Hc. apply step_starts_loop with (p := p); [congruence| |done].
    rewrite Hpcs. apply lookup_snoc.
  - intros evs pc pkt t tr Hc Hg Hcl Hv Ht Hm Hok.
    rewrite (step_forwards E _ pc pkt t tr) by done.
    destruct (fanout_frame E (bindings tr) pkt
                (updTrack t (with_written (fun l => l ++ [pkt])) (run E w' evs)))
      as [Hv1 Ht1].
    destruct (fanout_rest E (bindings tr) pkt
                (updTrack t (with_written (fun l => l ++ [pkt])) (run E w' evs)))
      as [Hg1 Hc1].
    split; [|split].
    + unfold writes. rewrite Hv1, Ht1. wsimpl. rewrite Hv. simpl.
      by rewrite list_lookup_alter_eq, Ht.
    + by rewrite Hg1.
    + by rewrite Hc1.
Qed.

(** A third publisher is accepted like the first two; then a packet of
    the first and, once its track has arrived, a packet of the third are
    written to the Relay Track alike. *)
Lemma whip_always_accepted_witness :
  whipHandler happy 2 whipRequest
    (set_responses (fun l => l ++ [emptyResponse]) twoPublishers)
    = Done tt threePublishers /\
  length (activePublishers threePublishers) = 3%nat /\
  writes (step happy threePublishers (RTPArrives 0 (inr (P 1))))
    = writes threePublishers ++ [P 1] /\
  writes (step happy (run happy threePublishers [RemoteTrack 2])
            (RTPArrives 2 (inr (P 2))))
    = writes (run happy threePublishers [RemoteTrack 2]) ++ [P 2].
Proof.
  destruct (whip_always_accepted happy 2 whipRequest "v=0 offer" "v=0 answer;"
              ["a=candidate:host;"; "a=candidate:srflx;"]
              (set_responses (fun l => l ++ [emptyResponse]) twoPublishers))
    as (w' & p & Hw & Hp & _ & Hpcs & Ha & Htr & _ & Hgo & Hcr & Hvt & Hstart & Hfwd);
    [by_compute| by_compute | |].
  { repeat split; by_compute. }
  assert (w' = threePublishers) as ->.
  { unfold threePublishers. by rewrite Hw. }
  split; [exact Hw|].
  split; [rewrite Ha, length_app; by_compute|].
  split.
  - destruct (Hfwd [] 0%nat (P 1) 0%nat
                (default relayTrack (tracks threePublishers !! 0%nat)))
      as (H & _);
      [by_compute|elem_compute|by_compute|by_compute|by_compute|by_compute|done|].
    rewrite !run_nil in H. exact H.
  - destruct (Hfwd [RemoteTrack 2] 2%nat (P 2) 0%nat
                (default relayTrack (tracks threePublishers !! 0%nat)))
      as (H & _);
      [by_compute|elem_compute|by_compute|by_compute|by_compute|by_compute|done|].
    exact H.
Defined.

(** ** The Relay Track and its codec *)





